(** * udon: a status line for the X root window

    A shallow embedding of [udon.c] and of the C library and system calls it
    relies on, together with the properties of the program that follow from
    the code.

    Conventions
    - a C [char] is an [ascii]; a [char] array is a list of cells together
      with the log of the indices the program stored to;
    - [size_t] and [ssize_t] values are integers of [Z]; the wrap-around of
      unsigned arithmetic is written out where the source computes with it;
    - a [double] is an IEEE 754 binary64 value, a [spec_float] of the standard
      library with precision 53 and maximal exponent 1024;
    - the process is a record of the state the program can observe or change
      (errno, the registered exit handlers, the installed signal handlers, its
      stack frame) and the list of the actions it performed on the outside
      world (system calls, Xlib requests, text written to stderr). *)

From Stdlib Require Import ZArith String Ascii Lia SpecFloat.
From stdpp Require Import base list.

Local Open Scope string_scope.
Local Open Scope Z_scope.

(** ** Memory: character arrays with a store log *)

Module Mem.

Definition NUL : ascii := Ascii.zero.

(** An array object: its cells, and every index a store was made to, most
    recent first.  An index outside the cells is a store outside the object:
    the C standard gives it no meaning; the model leaves the cells alone and
    keeps the index in the log. *)
Record array := Array { cells : list ascii; stores : list Z }.

Definition capacity (a : array) : Z := Z.of_nat (length (cells a)).

Definition in_bounds (a : array) (i : Z) : bool :=
  (0 <=? i) && (i <? capacity a).

Definition store (a : array) (i : Z) (c : ascii) : array :=
  {| cells := if in_bounds a i then <[Z.to_nat i := c]> (cells a) else cells a;
     stores := i :: stores a |}.

(** Consecutive stores of [cs] at [i], [i+1], ... *)
Fixpoint store_seq (a : array) (i : Z) (cs : list ascii) : array :=
  match cs with
  | [] => a
  | c :: cs' => store_seq (store a i c) (i + 1) cs'
  end.

(** An uninitialised automatic array of [n] cells holds whatever the stack
    held. *)
Definition auto_array (n : nat) (junk : nat -> ascii) : array :=
  {| cells := map junk (seq 0 n); stores := [] |}.

(** The C string held in a cell list: the characters before the first NUL
    (all of them when there is none). *)
Fixpoint strz (cs : list ascii) : list ascii :=
  match cs with
  | [] => []
  | c :: cs' => if Ascii.eqb c NUL then [] else c :: strz cs'
  end.

Definition c_str (a : array) : string := string_of_list_ascii (strz (cells a)).

(** [n] consecutive indices from [i]. *)
Fixpoint run_of (i : Z) (n : nat) : list Z :=
  match n with
  | O => []
  | S k => i :: run_of (i + 1) k
  end.

(** The stores an operation added to the log. *)
Definition stores_since (before after : array) : list Z :=
  take (length (stores after) - length (stores before))%nat (stores after).

End Mem.
Import Mem.

(** ** Files and [pread] *)

Definition EIO : Z := 5.
Definition EINVAL : Z := 22.
Definition EXIT_SUCCESS : Z := 0.
Definition EXIT_FAILURE : Z := 1.
Definition SIZE_MAX1 : Z := 2 ^ 64.

(** An open file as one read call sees it: the bytes it holds now, the offset
    of the open file description (moved by [read], never by [pread]), the
    error the device answers with, if any, and the most bytes the kernel moves
    in one call (a read may be short). *)
Record file := File {
  f_data : list ascii;
  f_pos : Z;
  f_fault : option Z;
  f_chunk : nat
}.

(** What the program did to the outside world. *)
Inductive event :=
| EvPread (fd : Z) (count : Z) (offset : Z)
| EvStderr (text : string)
| EvXStoreName (name : string)
| EvXFlush
| EvXCloseDisplay
| EvSleep (seconds : Z).

(** [pread(fd, buf, count, offset)]: the bytes at [offset], at most [count]
    of them, stored from the start of [buf]; the result is their number, or
    -1 together with the error number, and then nothing is stored. *)
Definition pread_bytes (f : file) (count offset : Z) : list ascii :=
  take (Nat.min (Z.to_nat count) (f_chunk f)) (drop (Z.to_nat offset) (f_data f)).

Definition pread (f : file) (buf : array) (count offset : Z)
  : Z * array * option Z :=
  match f_fault f with
  | Some e => (-1, buf, Some e)
  | None =>
      let bs := pread_bytes f count offset in
      (Z.of_nat (length bs), store_seq buf 0 bs, None)
  end.

(** ** The C library: numbers as text *)

Definition double : Type := spec_float.

(** Binary64 division, the [/] of the source on [double] operands. *)
Definition ddiv (x y : double) : double := SFdiv 53 1024 x y.

Definition is_finite (d : double) : bool :=
  match d with
  | S754_zero _ | S754_finite _ _ _ => true
  | S754_infinity _ | S754_nan => false
  end.

Definition code (c : ascii) : Z := Z.of_N (N_of_ascii c).

Definition is_digit (c : ascii) : bool := (48 <=? code c) && (code c <=? 57).

Definition is_space (c : ascii) : bool :=
  (code c =? 32) || ((9 <=? code c) && (code c <=? 13)).

Definition digit_char (d : Z) : ascii := ascii_of_N (Z.to_N (48 + d)).

(** Decimal digits of [n >= 0], most significant first. *)
Fixpoint dec_digits (fuel : nat) (n : Z) (acc : string) : string :=
  match fuel with
  | O => acc
  | S k =>
      let acc' := String (digit_char (n mod 10)) acc in
      if n <? 10 then acc' else dec_digits k (n / 10) acc'
  end.

Definition utoa (n : Z) : string := dec_digits (S (Z.to_nat (Z.log2 n))) n "".

Fixpoint zeros (n : nat) : string :=
  match n with
  | O => ""
  | S k => String "0" (zeros k)
  end.

(** At least [p] digits, zeros in front: the precision of an integer
    conversion. *)
Definition pad_digits (p : nat) (s : string) : string :=
  zeros (p - String.length s) ++ s.

(** [a / b] rounded to the nearest integer, a tie to the even one
    ([0 <= a], [0 < b]). *)
Definition div_half_even (a b : Z) : Z :=
  let q := a / b in
  let r := a mod b in
  match 2 * r ?= b with
  | Lt => q
  | Gt => q + 1
  | Eq => if Z.even q then q else q + 1
  end.

(** The number of units of [10^-p] printed for the magnitude [m * 2^e]: the
    exact binary value, rounded to nearest, ties to even. *)
Definition scaled_units (p : nat) (m : positive) (e : Z) : Z :=
  let a := Z.pos m * 10 ^ Z.of_nat p in
  if 0 <=? e then a * 2 ^ e else div_half_even a (2 ^ (- e)).

(** [units] of [10^-p] in fixed notation. *)
Definition fixed_text (p : nat) (units : Z) : string :=
  let scale := 10 ^ Z.of_nat p in
  utoa (units / scale) ++
  match p with
  | O => ""
  | _ => "." ++ pad_digits p (utoa (units mod scale))
  end.

(** *** Text to [double]: [strtod] *)

(** The leading characters that satisfy [p], and what follows them. *)
Fixpoint span (p : ascii -> bool) (s : string) : string * string :=
  match s with
  | "" => ("", "")
  | String c s' =>
      if p c then let '(a, b) := span p s' in (String c a, b) else ("", s)
  end.

Definition lower (c : ascii) : ascii :=
  if (65 <=? code c) && (code c <=? 90) then ascii_of_N (Z.to_N (code c + 32)) else c.

Definition is_xdigit (c : ascii) : bool :=
  is_digit c || ((97 <=? code (lower c)) && (code (lower c) <=? 102)).

Definition is_alnum_ (c : ascii) : bool :=
  is_digit c || ((97 <=? code (lower c)) && (code (lower c) <=? 122)) || (code c =? 95).

Definition digit_val (c : ascii) : Z :=
  if is_digit c then code c - 48 else code (lower c) - 87.

Fixpoint digits_val (base : Z) (acc : Z) (s : string) : Z :=
  match s with
  | "" => acc
  | String c s' => digits_val base (acc * base + digit_val c) s'
  end.

(** [s] without the prefix [lit], compared without regard to case. *)
Fixpoint strip_ci (lit s : string) : option string :=
  match lit, s with
  | "", _ => Some s
  | String a lit', String c s' =>
      if Ascii.eqb a (lower c) then strip_ci lit' s' else None
  | _, "" => None
  end.

Definition strip_sign (s : string) : bool * string :=
  match s with
  | String "-" s' => (true, s')
  | String "+" s' => (false, s')
  | _ => (false, s)
  end.

(** An exponent part, when one is there: the marker [mark], a sign if any,
    and one digit at least. *)
Definition exponent_part (mark : ascii) (s : string) : Z * string :=
  match s with
  | String c s1 =>
      if Ascii.eqb (lower c) mark then
        let '(neg, s2) := strip_sign s1 in
        let '(ds, s3) := span is_digit s2 in
        match ds with
        | "" => (0, s)
        | _ => ((if neg then - digits_val 10 0 ds else digits_val 10 0 ds), s3)
        end
      else (0, s)
  | "" => (0, s)
  end.

(** Digits, then a radix point and more digits if any. *)
Definition mantissa_part (digit : ascii -> bool) (s : string)
  : string * string * string :=
  let '(ip, s1) := span digit s in
  match s1 with
  | String "." s2 => let '(fp, s3) := span digit s2 in (ip, fp, s3)
  | _ => (ip, "", s1)
  end.

(** The binary64 value nearest to [n * 10^e10], ties to even. *)
Definition dec_to_double (neg : bool) (n : Z) (e10 : Z) : double :=
  match n with
  | Zpos m =>
      if 0 <=? e10
      then binary_round 53 1024 neg (m * Z.to_pos (10 ^ e10)) 0
      else SFdiv 53 1024 (S754_finite neg m 0)
                         (S754_finite false (Z.to_pos (10 ^ (- e10))) 0)
  | _ => S754_zero neg
  end.

(** The binary64 value nearest to [n * 2^e2]. *)
Definition bin_to_double (neg : bool) (n : Z) (e2 : Z) : double :=
  match n with
  | Zpos m => binary_round 53 1024 neg m e2
  | _ => S754_zero neg
  end.

Definition parse_decimal (neg : bool) (s : string) : option (double * string) :=
  let '(ip, fp, s1) := mantissa_part is_digit s in
  match ip ++ fp with
  | "" => None
  | ds =>
      let '(e, s2) := exponent_part "e" s1 in
      Some (dec_to_double neg (digits_val 10 0 ds) (e - Z.of_nat (String.length fp)), s2)
  end.

Definition parse_hex (neg : bool) (s : string) : option (double * string) :=
  s0 ← strip_ci "0x" s;
  let '(ip, fp, s1) := mantissa_part is_xdigit s0 in
  match ip ++ fp with
  | "" => None
  | ds =>
      let '(e, s2) := exponent_part "p" s1 in
      Some (bin_to_double neg (digits_val 16 0 ds) (e - 4 * Z.of_nat (String.length fp)), s2)
  end.

Definition parse_special (neg : bool) (s : string) : option (double * string) :=
  match strip_ci "inf" s with
  | Some s1 =>
      Some (S754_infinity neg, default s1 (strip_ci "inity" s1))
  | None =>
      s1 ← strip_ci "nan" s;
      match s1 with
      | String "(" s2 =>
          match span is_alnum_ s2 with
          | (_, String ")" s3) => Some (S754_nan, s3)
          | _ => Some (S754_nan, s1)
          end
      | _ => Some (S754_nan, s1)
      end
  end.

(** [strtod] in the C locale: the value of the longest prefix of [s] that has
    the form of a number, and the rest; zero and all of [s] when there is
    none. *)
Definition strtod (s : string) : double * string :=
  let '(neg, s1) := strip_sign (snd (span is_space s)) in
  match parse_special neg s1 with
  | Some r => r
  | None =>
      match parse_hex neg s1 with
      | Some r => r
      | None => default (S754_zero false, s) (parse_decimal neg s1)
      end
  end.

Definition atof (s : string) : double := fst (strtod s).

(** *** [sscanf]

    A conversion specification is [%], then an optional [*], an optional
    field width, an optional length modifier and a conversion specifier. *)

Definition is_scan_conversion (c : ascii) : bool :=
  existsb (Ascii.eqb c) (list_ascii_of_string "diouxXaAeEfFgGcs[pn%").

Definition is_float_conversion (c : ascii) : bool :=
  existsb (Ascii.eqb c) (list_ascii_of_string "aAeEfFgG").

Definition length_modifier (s : string) : string * string :=
  match s with
  | String "h" (String "h" r) => ("hh", r)
  | String "l" (String "l" r) => ("ll", r)
  | String c r =>
      if existsb (Ascii.eqb c) (list_ascii_of_string "hljztL")
      then (String c "", r) else ("", s)
  | "" => ("", s)
  end.

Record scan_spec := ScanSpec {
  sp_suppress : bool;
  sp_width : string;
  sp_length : string;
  sp_conv : ascii
}.

(** The specification at the start of [fmt] (the [%] already read); [None]
    when the characters there form none. *)
Definition read_scan_spec (fmt : string) : option (scan_spec * string) :=
  let '(star, f1) :=
    match fmt with String "*" r => (true, r) | _ => (false, fmt) end in
  let '(w, f2) := span is_digit f1 in
  let '(lm, f3) := length_modifier f2 in
  match f3 with
  | String c f4 =>
      if is_scan_conversion c then Some (ScanSpec star w lm c, f4) else None
  | "" => None
  end.

(** The outcome of a scan: the values stored through the pointer arguments,
    in order, or a directive this model does not cover. *)
Inductive scanned :=
| Stored (values : list double)
| Unmodelled.

(** The directives are taken in turn until one fails.  A [%] that no valid
    specification follows ends the scan as a failed directive does (the
    behaviour of the Linux C libraries; ISO C leaves it undefined).  The
    floating conversions with the [l] modifier store a [double]. *)
Fixpoint vscan (fuel : nat) (fmt input : string) (acc : list double) : scanned :=
  match fuel with
  | O => Stored acc
  | S k =>
      match fmt with
      | "" => Stored acc
      | String "%" fmt1 =>
          match read_scan_spec fmt1 with
          | None => Stored acc
          | Some (ScanSpec false "" "l" c, fmt2) =>
              if is_float_conversion c then
                let input1 := snd (span is_space input) in
                let '(v, rest) := strtod input1 in
                if (String.length rest <? String.length input1)%nat
                then vscan k fmt2 rest (acc ++ [v])%list
                else Stored acc
              else Unmodelled
          | Some _ => Unmodelled
          end
      | String c fmt1 =>
          if is_space c then vscan k fmt1 (snd (span is_space input)) acc
          else
            match input with
            | String d input1 =>
                if Ascii.eqb c d then vscan k fmt1 input1 acc else Stored acc
            | "" => Stored acc
            end
      end
  end.

Definition sscanf (input fmt : string) : scanned :=
  vscan (String.length fmt) fmt input [].

(** The new-line character, as a string. *)
Definition LF : string := String (ascii_of_N 10) "".

Definition sign_text (s : bool) : string := if s then "-" else "".

Section Udon.

(** What the C standard leaves to the implementation: the text printed for
    a NaN, and the message [strerror] gives for an error number. *)
Variable nan_text : string.
Variable strerror : Z -> string.

(** The [%.pf] conversion. *)
Definition fmt_f (p : nat) (d : double) : string :=
  match d with
  | S754_zero s => sign_text s ++ fixed_text p 0
  | S754_finite s m e => sign_text s ++ fixed_text p (scaled_units p m e)
  | S754_infinity s => sign_text s ++ "inf"
  | S754_nan => nan_text
  end.

(** The [%.pu] conversion of an [unsigned int]; an [int] argument is read
    as unsigned. *)
Definition fmt_u (p : option nat) (n : Z) : string :=
  let u := n mod 2 ^ 32 in
  match p with
  | None => utoa u
  | Some O => if u =? 0 then "" else utoa u
  | Some k => pad_digits k (utoa u)
  end.

(** The [%.ps] conversion. *)
Definition fmt_s (p : option nat) (s : string) : string :=
  match p with
  | None => s
  | Some k => substring 0 k s
  end.

(** *** The [printf] family

    The directives the program uses: ordinary characters, and [%] with an
    optional [.precision] and one of the conversions [u], [f], [s], [%].
    [None] stands for a format outside this fragment or an argument that
    does not fit its conversion. *)

Inductive parg :=
| PUInt (n : Z)
| PDouble (d : double)
| PStr (s : string).

Inductive pmode :=
| PText
| PPercent
| PPrec (digits : nat).

Definition convert (p : option nat) (c : ascii) (args : list parg)
  : option (string * list parg) :=
  match c, args with
  | "u"%char, PUInt n :: rest => Some (fmt_u p n, rest)
  | "f"%char, PDouble d :: rest => Some (fmt_f (default 6%nat p) d, rest)
  | "s"%char, PStr s :: rest => Some (fmt_s p s, rest)
  | "%"%char, _ => Some ("%", args)
  | _, _ => None
  end.

Fixpoint vformat (m : pmode) (fmt : string) (args : list parg) : option string :=
  match fmt with
  | "" => match m with PText => Some "" | _ => None end
  | String c fmt' =>
      match m with
      | PText =>
          if Ascii.eqb c "%" then vformat PPercent fmt' args
          else String c <$> vformat PText fmt' args
      | PPercent =>
          if Ascii.eqb c "." then vformat (PPrec 0) fmt' args
          else '(text, rest) ← convert None c args;
               append text <$> vformat PText fmt' rest
      | PPrec n =>
          if is_digit c
          then vformat (PPrec (10 * n + Z.to_nat (code c - 48))) fmt' args
          else '(text, rest) ← convert (Some n) c args;
               append text <$> vformat PText fmt' rest
      end
  end.

Definition format (fmt : string) (args : list parg) : option string :=
  vformat PText fmt args.

(** [snprintf(buf, size, fmt, ...)]: the first [size - 1] characters of the
    text and a NUL go to [buf] (nothing when [size] is 0); the result is the
    length of the whole text. *)
Definition snprintf (buf : array) (size : Z) (fmt : string) (args : list parg)
  : option (Z * array) :=
  text ← format fmt args;
  let kept := take (Z.to_nat (size - 1)) (list_ascii_of_string text) in
  let buf' :=
    if 0 <? size
    then store (store_seq buf 0 kept) (Z.of_nat (length kept)) NUL
    else buf in
  Some (Z.of_nat (String.length text), buf').

(** ** The process *)

Definition SIGHUP : Z := 1.
Definition SIGINT : Z := 2.
Definition SIGTERM : Z := 15.

(** Other signals, with their numbers on Linux (x86 and ARM): the two that
    can be neither caught nor blocked, and those whose default action does
    not end the process. *)
Definition SIGKILL : Z := 9.
Definition SIGSTOP : Z := 19.
Definition SIGCHLD : Z := 17.
Definition SIGCONT : Z := 18.
Definition SIGTSTP : Z := 20.
Definition SIGTTIN : Z := 21.
Definition SIGTTOU : Z := 22.
Definition SIGURG : Z := 23.
Definition SIGWINCH : Z := 28.

Definition LOADAVG : string := "/proc/loadavg".
Definition ENGYNOW : string := "/sys/class/power_supply/BAT0/energy_now".
Definition ENGYFUL : string := "/sys/class/power_supply/BAT0/energy_full".

(** The functions the program hands to [atexit]. *)
Inductive exit_fn := Fn_onexit.

(** The automatic variables of [main]: the three descriptors, and the
    variables of the loop body. *)
Record frame := Frame {
  loadavg : Z; engynow : Z; engyful : Z;
  nam : array; avg : array; now : array; ful : array;
  tm_hour : Z; tm_min : Z; tm_sec : Z;
  avg1 : double; avg5 : double; avg15 : double;
  ret : Z
}.

Record proc := Proc {
  errno : Z;
  exit_fns : list exit_fn;     (* registered with atexit, latest first *)
  sig_caught : list Z;         (* the signals whose action is onsignal *)
  actions : list event;        (* oldest first *)
  vars : frame
}.

Definition emit (e : event) (p : proc) : proc :=
  Proc (errno p) (exit_fns p) (sig_caught p) (actions p ++ [e])%list (vars p).

Definition set_errno (e : Z) (p : proc) : proc :=
  Proc e (exit_fns p) (sig_caught p) (actions p) (vars p).

Definition set_vars (f : frame) (p : proc) : proc :=
  Proc (errno p) (exit_fns p) (sig_caught p) (actions p) f.

(** The program points of the loop body, one per statement. *)
Inductive label :=
| L_time | L_cat_avg | L_sscanf | L_cat_now | L_cat_ful
| L_snprintf | L_terminate | L_store | L_flush | L_sleep.

(** [Running l p]: the process is about to run the statement at [l].
    [Exiting status rest handler p]: a call of [exit(status)] is under way;
    [rest] are the calls the exit function now running has still to make,
    [exit_fns p] the functions not yet called, and [handler] says that the
    call was made in a signal handler. *)
Inductive config :=
| Running (l : label) (p : proc)
| Exiting (status : Z) (rest : list event) (handler : bool) (p : proc)
| Exited (status : Z) (p : proc)
| Killed (sig : Z) (p : proc)
| Undefined (p : proc).

(** What one turn of the loop finds outside the program: the clock, the
    file behind each descriptor, and what the stack holds where the
    variables of the loop body are placed. *)
Record world := World {
  w_clock : Z;
  w_file : Z -> file;
  junk_nam : nat -> ascii; junk_avg : nat -> ascii;
  junk_now : nat -> ascii; junk_ful : nat -> ascii;
  junk_avg1 : double; junk_avg5 : double; junk_avg15 : double
}.

(** *** [onexit], [exit], [die], [onsignal] *)

Definition onexit (p : proc) : proc :=
  emit EvXCloseDisplay (emit (EvXStoreName "") p).

Definition call_exit_fn (f : exit_fn) (p : proc) : proc :=
  match f with Fn_onexit => onexit p end.

(** [exit(status)]: the registered functions run, the latest first, each
    once; then the process ends with [status]. *)
Definition c_exit (status : Z) (p : proc) : config :=
  Exited status
    (fold_left (fun q f => call_exit_fn f q) (exit_fns p)
       (Proc (errno p) [] (sig_caught p) (actions p) (vars p))).

Definition die (fmt : string) (args : list parg) (p : proc) : config :=
  match format fmt args with
  | Some text => c_exit EXIT_FAILURE (emit (EvStderr text) p)
  | None => Undefined p
  end.

(** *** [exit] call by call

    [c_exit] is a call of [exit] that nothing interrupts.  A signal can
    arrive while the call is under way, so the call is also given in steps:
    the calls an exit function makes, and one step of [exit].  As the GNU C
    library does it, a function is taken off the list before it is called;
    when no function is left the process ends.  A call of [exit] made while
    another is under way (which ISO C leaves undefined) so runs the functions
    still on the list, and the interrupted one is never resumed. *)
Definition calls_of (f : exit_fn) : list event :=
  match f with Fn_onexit => [EvXStoreName ""; EvXCloseDisplay] end.

Definition exit_step (c : config) : config :=
  match c with
  | Exiting status (e :: rest) handler p => Exiting status rest handler (emit e p)
  | Exiting status [] handler p =>
      match exit_fns p with
      | f :: fs =>
          Exiting status (calls_of f) handler
            (Proc (errno p) fs (sig_caught p) (actions p) (vars p))
      | [] => Exited status p
      end
  | _ => c
  end.

(** The steps a call of [exit] has still to make: for each function its
    entry and its calls, and the end of the process. *)
Fixpoint calls_left (fs : list exit_fn) : nat :=
  match fs with
  | [] => 0
  | f :: fs' => S (length (calls_of f) + calls_left fs')
  end.

Definition steps_left (c : config) : nat :=
  match c with
  | Exiting _ rest _ p => S (length rest + calls_left (exit_fns p))
  | _ => 0
  end.

(** [die] up to its call of [exit]: the message is written and
    [exit(EXIT_FAILURE)] is entered, in [main], where no signal is blocked. *)
Definition die_to_exit (fmt : string) (args : list parg) (p : proc) : config :=
  match format fmt args with
  | Some text => Exiting EXIT_FAILURE [] false (emit (EvStderr text) p)
  | None => Undefined p
  end.

(** [onsignal] runs as the handler [main] installs with [sigaction]: it
    enters [exit(EXIT_SUCCESS)], and cannot return. *)
Definition onsignal (sig : Z) (p : proc) : config := Exiting EXIT_SUCCESS [] true p.

(** *** Signals *)

(** What a signal does to a process that has no handler for it (signal(7)):
    it ends the process, it is ignored, or it stops the process until a
    SIGCONT. *)
Inductive default_action := Terminate | Ignore | Stop.

Definition sig_default (sig : Z) : default_action :=
  if bool_decide (sig ∈ [SIGCHLD; SIGCONT; SIGURG; SIGWINCH]) then Ignore
  else if bool_decide (sig ∈ [SIGSTOP; SIGTSTP; SIGTTIN; SIGTTOU]) then Stop
  else Terminate.

(** The default action on the process in configuration [c]: when it ends the
    process no exit function runs; a stopped process goes on from where it
    was. *)
Definition uncaught (sig : Z) (c : config) (p : proc) : config :=
  match sig_default sig with
  | Terminate => Killed sig p
  | Ignore | Stop => c
  end.

(** The handler runs with the signals of [act.sa_mask] blocked, and [main]
    fills the mask ([sigfillset]): all signals but SIGKILL and SIGSTOP. *)
Definition blocked_in_handler (sig : Z) : bool :=
  negb (bool_decide (sig ∈ [SIGKILL; SIGSTOP])).

(** The signal [sig] (a number from 1 to 64) reaches the process.  A caught
    signal runs [onsignal], also when the process is inside the [exit] of
    [die]; inside the [exit] of [onsignal] a blocked signal stays pending,
    since the handler does not return.  A process that has ended receives
    nothing. *)
Definition deliver (sig : Z) (c : config) : config :=
  match c with
  | Running _ p =>
      if bool_decide (sig ∈ sig_caught p) then onsignal sig p else uncaught sig c p
  | Exiting _ _ handler p =>
      if handler && blocked_in_handler sig then c
      else if bool_decide (sig ∈ sig_caught p) then onsignal sig p
      else uncaught sig c p
  | _ => c
  end.

(** *** [cat] *)

Definition cat (w : world) (fd : Z) (buf : array) (len : Z) (p : proc)
  : Z * array * proc :=
  (* Reject invalid length *)
  if len <=? 0 then (-1, buf, set_errno EINVAL p)
  else
    let '(r, buf1, err) := pread (w_file w fd) buf ((len - 1) mod SIZE_MAX1) 0 in
    let p1 := emit (EvPread fd ((len - 1) mod SIZE_MAX1) 0) p in
    let p2 := match err with Some e => set_errno e p1 | None => p1 end in
    (* Zero-terminate buffer *)
    let buf2 := if 0 <=? r then store buf1 r NUL else buf1 in
    (r, buf2, p2).

(** The world with the offset of every open file description moved, as
    earlier [read] calls on the descriptors would leave it. *)
Definition seek (pos : Z -> Z) (w : world) : world :=
  World (w_clock w)
    (fun fd => let f := w_file w fd in File (f_data f) (pos fd) (f_fault f) (f_chunk f))
    (junk_nam w) (junk_avg w) (junk_now w) (junk_ful w)
    (junk_avg1 w) (junk_avg5 w) (junk_avg15 w).

(** *** The loop body of [main] *)

Definition status_fmt : string := "%.2u:%.2u:%.2u  %.2f %.2f %.2f  %.2f".
Definition read_fmt : string := Eval cbv in ("Failed to read from “%s”: %s" ++ LF).

Definition with_nam (a : array) (f : frame) : frame :=
  Frame (loadavg f) (engynow f) (engyful f) a (avg f) (now f) (ful f)
    (tm_hour f) (tm_min f) (tm_sec f) (avg1 f) (avg5 f) (avg15 f) (ret f).

Definition with_avg (a : array) (f : frame) : frame :=
  Frame (loadavg f) (engynow f) (engyful f) (nam f) a (now f) (ful f)
    (tm_hour f) (tm_min f) (tm_sec f) (avg1 f) (avg5 f) (avg15 f) (ret f).

Definition with_now (a : array) (f : frame) : frame :=
  Frame (loadavg f) (engynow f) (engyful f) (nam f) (avg f) a (ful f)
    (tm_hour f) (tm_min f) (tm_sec f) (avg1 f) (avg5 f) (avg15 f) (ret f).

Definition with_ful (a : array) (f : frame) : frame :=
  Frame (loadavg f) (engynow f) (engyful f) (nam f) (avg f) (now f) a
    (tm_hour f) (tm_min f) (tm_sec f) (avg1 f) (avg5 f) (avg15 f) (ret f).

Definition with_ret (r : Z) (f : frame) : frame :=
  Frame (loadavg f) (engynow f) (engyful f) (nam f) (avg f) (now f) (ful f)
    (tm_hour f) (tm_min f) (tm_sec f) (avg1 f) (avg5 f) (avg15 f) r.

(** [sscanf] stores through the pointers of the conversions that
    succeeded, in order; the other variables keep what they held. *)
Definition assign3 (vs : list double) (f : frame) : frame :=
  Frame (loadavg f) (engynow f) (engyful f) (nam f) (avg f) (now f) (ful f)
    (tm_hour f) (tm_min f) (tm_sec f)
    (default (avg1 f) (vs !! 0%nat))
    (default (avg5 f) (vs !! 1%nat))
    (default (avg15 f) (vs !! 2%nat))
    (ret f).

(** Entry of the loop body: the arrays and the load variables are fresh
    automatic objects; [tm] is the UTC time of day of the clock. *)
Definition enter (w : world) (f : frame) : frame :=
  let tn := w_clock w in
  Frame (loadavg f) (engynow f) (engyful f)
    (auto_array 128 (junk_nam w)) (auto_array 32 (junk_avg w))
    (auto_array 32 (junk_now w)) (auto_array 32 (junk_ful w))
    (tn mod 86400 / 3600) (tn mod 3600 / 60) (tn mod 60)
    (junk_avg1 w) (junk_avg5 w) (junk_avg15 w) (ret f).

Definition exec (w : world) (l : label) (p : proc) : config :=
  let f := vars p in
  match l with
  | L_time =>
      (* tn = time(0); tm = gmtime(&tn) *)
      Running L_cat_avg (set_vars (enter w f) p)
  | L_cat_avg =>
      (* Get load average *)
      let '(r, buf, p1) := cat w (loadavg f) (avg f) 32 p in
      let p2 := set_vars (with_avg buf f) p1 in
      if r <? 0 then die read_fmt [PStr LOADAVG; PStr (strerror (errno p2))] p2
      else Running L_sscanf p2
  | L_sscanf =>
      match sscanf (c_str (avg f)) "%.2f %.2f %.2f" with
      | Stored vs => Running L_cat_now (set_vars (assign3 vs f) p)
      | Unmodelled => Undefined p
      end
  | L_cat_now =>
      (* Read battery state *)
      let '(r, buf, p1) := cat w (engynow f) (now f) 32 p in
      let p2 := set_vars (with_now buf f) p1 in
      if r <? 0 then die read_fmt [PStr ENGYNOW; PStr (strerror (errno p2))] p2
      else Running L_cat_ful p2
  | L_cat_ful =>
      let '(r, buf, p1) := cat w (engyful f) (ful f) 32 p in
      let p2 := set_vars (with_ful buf f) p1 in
      if r <? 0 then die read_fmt [PStr ENGYFUL; PStr (strerror (errno p2))] p2
      else Running L_snprintf p2
  | L_snprintf =>
      (* Format everything properly *)
      match
        snprintf (nam f) 128 status_fmt
          [PUInt (tm_hour f); PUInt (tm_min f); PUInt (tm_sec f);
           PDouble (avg1 f); PDouble (avg5 f); PDouble (avg15 f);
           PDouble (ddiv (atof (c_str (now f))) (atof (c_str (ful f))))]
      with
      | Some (r, buf) => Running L_terminate (set_vars (with_ret r (with_nam buf f)) p)
      | None => Undefined p
      end
  | L_terminate =>
      (* Zero-terminate string if truncated: the int [ret] is compared as a
         size_t with [sizeof nam] *)
      if 128 <=? ret f mod SIZE_MAX1
      then Running L_store (set_vars (with_nam (store (nam f) 128 NUL) f) p)
      else Running L_store p
  | L_store =>
      (* Set root window name and flush output buffer *)
      Running L_flush (emit (EvXStoreName (c_str (nam f))) p)
  | L_flush => Running L_sleep (emit EvXFlush p)
  | L_sleep => Running L_time (emit (EvSleep 1) p)
  end.

Definition step (w : world) (c : config) : config :=
  match c with
  | Running l p => exec w l p
  | _ => c
  end.

(** One turn of the loop: its ten statements, unless the process ends
    before. *)
Definition loop_body (w : world) (p : proc) : config :=
  Nat.iter 10 (step w) (Running L_time p).

(** The loop over the worlds of the successive turns. *)
Fixpoint loop (ws : list world) (p : proc) : config :=
  match ws with
  | [] => Running L_time p
  | w :: ws' =>
      match loop_body w p with
      | Running _ p' => loop ws' p'
      | c => c
      end
  end.

(** *** The loop when signals arrive

    A statement of the loop up to the call of [exit], if it makes one: the
    three reads, whose [die] is followed into [exit]. *)
Definition exec_to_exit (w : world) (l : label) (p : proc) : config :=
  let f := vars p in
  match l with
  | L_cat_avg =>
      let '(r, buf, p1) := cat w (loadavg f) (avg f) 32 p in
      let p2 := set_vars (with_avg buf f) p1 in
      if r <? 0 then die_to_exit read_fmt [PStr LOADAVG; PStr (strerror (errno p2))] p2
      else Running L_sscanf p2
  | L_cat_now =>
      let '(r, buf, p1) := cat w (engynow f) (now f) 32 p in
      let p2 := set_vars (with_now buf f) p1 in
      if r <? 0 then die_to_exit read_fmt [PStr ENGYNOW; PStr (strerror (errno p2))] p2
      else Running L_cat_ful p2
  | L_cat_ful =>
      let '(r, buf, p1) := cat w (engyful f) (ful f) 32 p in
      let p2 := set_vars (with_ful buf f) p1 in
      if r <? 0 then die_to_exit read_fmt [PStr ENGYFUL; PStr (strerror (errno p2))] p2
      else Running L_snprintf p2
  | _ => exec w l p
  end.

(** What happens to a process inside [exit]: the call goes one step on, or a
    signal arrives. *)
Inductive happening :=
| Goes_on
| Signal (sig : Z).

Definition happen (h : happening) (c : config) : config :=
  match h with
  | Goes_on => exit_step c
  | Signal sig => deliver sig c
  end.

Definition run (hs : list happening) (c : config) : config :=
  fold_left (fun c h => happen h c) hs c.

(** The signals that arrive, and the number of steps [exit] makes. *)
Definition signals_of (hs : list happening) : list Z :=
  flat_map (fun h => match h with Signal sig => [sig] | Goes_on => [] end) hs.

Definition steps_of (hs : list happening) : nat :=
  length (List.filter (fun h => match h with Goes_on => true | Signal _ => false end) hs).

(** *** The start of [main] *)

(** What the start of the program finds: whether the display opens and its
    name, the error [sigaction] fails with for a signal, if any, and for
    each path the descriptor [open] gives or the error it fails with. *)
Record boot := Boot {
  b_display : bool;
  b_display_name : string;
  b_sigaction : Z -> option Z;
  b_open : string -> Z + Z
}.

Definition display_fmt : string := Eval cbv in ("Unable to open display “%s”" ++ LF).
Definition signal_fmt : string := Eval cbv in ("Unable to set signal handler: %s" ++ LF).
Definition open_fmt : string := Eval cbv in ("Failed to open “%s”: %s" ++ LF).

Definition c_atexit (f : exit_fn) (p : proc) : proc :=
  Proc (errno p) (f :: exit_fns p) (sig_caught p) (actions p) (vars p).

(** [sigaction(sig, &act, 0)] with [act.sa_handler = onsignal]: zero and the
    handler is installed, or non-zero and [errno] is set. *)
Definition c_sigaction (b : boot) (sig : Z) (p : proc) : bool * proc :=
  match b_sigaction b sig with
  | Some e => (true, set_errno e p)
  | None =>
      (false, Proc (errno p) (exit_fns p) (sig :: sig_caught p) (actions p) (vars p))
  end.

Definition c_open (b : boot) (path : string) (p : proc) : Z * proc :=
  match b_open b path with
  | inl fd => (fd, p)
  | inr e => (-1, set_errno e p)
  end.

Definition with_fds (a n u : Z) (f : frame) : frame :=
  Frame a n u (nam f) (avg f) (now f) (ful f)
    (tm_hour f) (tm_min f) (tm_sec f) (avg1 f) (avg5 f) (avg15 f) (ret f).

Definition startup (b : boot) (p : proc) : config :=
  (* Connect to X server *)
  if negb (b_display b) then die display_fmt [PStr (b_display_name b)] p
  else
    (* Set exit handler *)
    let p := c_atexit Fn_onexit p in
    (* Configure signal handler *)
    let '(failed, p) :=
      let '(r1, p1) := c_sigaction b SIGHUP p in
      if r1 then (true, p1)
      else
        let '(r2, p2) := c_sigaction b SIGINT p1 in
        if r2 then (true, p2) else c_sigaction b SIGTERM p2 in
    if failed then die signal_fmt [PStr (strerror (errno p))] p
    else
      let '(fd1, p) := c_open b LOADAVG p in
      if fd1 <? 0 then die open_fmt [PStr LOADAVG; PStr (strerror (errno p))] p
      else
        let '(fd2, p) := c_open b ENGYNOW p in
        if fd2 <? 0 then die open_fmt [PStr ENGYNOW; PStr (strerror (errno p))] p
        else
          let '(fd3, p) := c_open b ENGYFUL p in
          if fd3 <? 0 then die open_fmt [PStr ENGYFUL; PStr (strerror (errno p))] p
          else Running L_time (set_vars (with_fds fd1 fd2 fd3 (vars p)) p).

(** The process at the entry of [main]. *)
Definition fresh (f : frame) : proc := Proc 0 [] [] [] f.

Definition main (b : boot) (ws : list world) (f : frame) : config :=
  match startup b (fresh f) with
  | Running _ p => loop ws p
  | c => c
  end.

(** *** What a turn of the loop shows

    The status line in the words of its description: the time of day as
    [HH:MM:SS], two spaces, the three load values and the battery fraction
    with two decimals. *)
Definition status_text (h m s : Z) (l1 l5 l15 b : double) : string :=
  fmt_u (Some 2%nat) h ++ ":" ++ fmt_u (Some 2%nat) m ++ ":" ++ fmt_u (Some 2%nat) s
  ++ "  " ++ fmt_f 2 l1 ++ " " ++ fmt_f 2 l5 ++ " " ++ fmt_f 2 l15
  ++ "  " ++ fmt_f 2 b.

(** The C string [cat] leaves in a 32-byte array for descriptor [fd]. *)
Definition read_text (w : world) (fd : Z) : string :=
  string_of_list_ascii (strz (pread_bytes (w_file w fd) 31 0)).

(** The quotient the loop body hands to the last conversion. *)
Definition fraction (w : world) (f : frame) : double :=
  ddiv (atof (read_text w (engynow f))) (atof (read_text w (engyful f))).

(** The whole text of the status line of a turn. *)
Definition turn_text (w : world) (f : frame) : string :=
  status_text (w_clock w mod 86400 / 3600) (w_clock w mod 3600 / 60) (w_clock w mod 60)
    (junk_avg1 w) (junk_avg5 w) (junk_avg15 w) (fraction w f).

(** What a 128-byte array keeps of a text, read back as a C string. *)
Definition kept_of (text : string) : string :=
  string_of_list_ascii (strz (take 127 (list_ascii_of_string text))).

(** None of the three files answers with an error. *)
Definition readable (w : world) (f : frame) : Prop :=
  f_fault (w_file w (loadavg f)) = None /\
  f_fault (w_file w (engynow f)) = None /\
  f_fault (w_file w (engyful f)) = None.

(** The three reads of the loop body: program point, descriptor, path. *)
Definition read_sources : list (label * (frame -> Z) * string) :=
  [(L_cat_avg, loadavg, LOADAVG); (L_cat_now, engynow, ENGYNOW);
   (L_cat_ful, engyful, ENGYFUL)].

(** The actions of the exit functions [fs], run in order. *)
Definition exit_actions (fs : list exit_fn) : list event :=
  flat_map (fun f => match f with Fn_onexit => [EvXStoreName ""; EvXCloseDisplay] end) fs.

Definition is_close (e : event) : bool :=
  match e with EvXCloseDisplay => true | _ => false end.

(** How often the display connection was closed. *)
Definition closes (es : list event) : nat := length (List.filter is_close es).

(** [u] is an integer nearest to [a / b] (either one at a tie). *)
Definition nearest_to (u a b : Z) : Prop := 2 * Z.abs (u * b - a) <= b.

(** The magnitude [m * 2^e] of a finite double as a fraction of integers. *)
Definition numerator (m : positive) (e : Z) : Z := Z.pos m * 2 ^ Z.max e 0.
Definition denominator (e : Z) : Z := 2 ^ Z.max (- e) 0.

(** [mx * 2^ex <= my * 2^ey], on integers. *)
Definition le_mag (mx : positive) (ex : Z) (my : positive) (ey : Z) : Prop :=
  Z.pos mx * 2 ^ (ex - Z.min ex ey) <= Z.pos my * 2 ^ (ey - Z.min ex ey).

(** [0 <= x <= my * 2^ey] for a double [x]. *)
Definition between_zero_and (my : positive) (ey : Z) (x : double) : Prop :=
  match x with
  | S754_zero _ => True
  | S754_finite false mx ex => le_mag mx ex my ey
  | _ => False
  end.

(** A shift record whose mantissa is at most [b], and below [b] when bits
    were lost. *)
Definition under (b : Z) (mrs : shr_record) : Prop :=
  0 <= shr_m mrs <= b /\ (shr_r mrs || shr_s mrs = true -> shr_m mrs < b).

Definition is_reset (e : event) : bool :=
  match e with EvXStoreName "" => true | _ => false end.

(** How often the root window name was set to the empty string. *)
Definition resets (es : list event) : nat := length (List.filter is_reset es).

(** A text that starts with a character other than NUL. *)
Definition live (s : string) : Prop :=
  exists c rest, s = String c rest /\ c <> NUL.

(** What holds of [nam] at a program point: 128 cells from the entry of the
    loop body on, and a first cell other than NUL once the line is
    formatted. *)
Definition nam_at (l : label) (a : array) : Prop :=
  match l with
  | L_time | L_flush | L_sleep => True
  | L_terminate | L_store => exists c rest, cells a = c :: rest /\ c <> NUL
  | _ => length (cells a) = 128%nat
  end.

(** The process as the start of [main] leaves it: [onexit] is the one exit
    function, the three signals are caught, the display is still open. *)
Definition armed (p : proc) : Prop :=
  exit_fns p = [Fn_onexit] /\
  (forall sig, sig ∈ [SIGHUP; SIGINT; SIGTERM] -> sig ∈ sig_caught p) /\
  closes (actions p) = 0%nat /\
  resets (actions p) = 0%nat.

(** The configurations the program runs through. *)
Inductive reachable : config -> Prop :=
| reach_startup (b : boot) (f : frame) : reachable (startup b (fresh f))
| reach_step (w : world) (c : config) : reachable c -> reachable (step w c).

(** ** Scenes

    Concrete worlds and a concrete process, for the examples below. *)

Definition plain_file (text : string) : file :=
  File (list_ascii_of_string text) 0 None 4096.

Definition broken_file (e : Z) : file := File [] 0 (Some e) 4096.

Definition blank : nat -> ascii := fun _ => " "%char.

Definition zero : double := S754_zero false.

(** The three files behind the descriptors 3, 4 and 5, the clock, and the
    values the stack holds where the load variables go. *)
Definition scene (clock : Z) (a n u : file) (j1 j5 j15 : double) : world :=
  World clock (fun fd => if fd =? 3 then a else if fd =? 4 then n else u)
    blank blank blank blank j1 j5 j15.

(** The process after a start of [main] that met no error. *)
Definition booted : proc :=
  Proc 0 [Fn_onexit] [SIGTERM; SIGINT; SIGHUP] []
    (Frame 3 4 5 (Array [] []) (Array [] []) (Array [] []) (Array [] [])
       0 0 0 zero zero zero 0).

Definition boot_ok : boot :=
  Boot true ":0" (fun _ => None)
    (fun path =>
       if String.eqb path LOADAVG then inl 3
       else if String.eqb path ENGYNOW then inl 4 else inl 5).

(** The scene of the end-to-end example: 07:09:03 UTC, load averages 0.50,
    0.75 and 1.20, a battery at 5000 of 10000. *)
Definition scene_half : world :=
  scene 25743 (plain_file ("0.50 0.75 1.20 1/123 4567" ++ LF))
    (plain_file ("5000" ++ LF)) (plain_file ("10000" ++ LF)) zero zero zero.

(** An energy reading with an exponent, which prints with 201 digits. *)
Definition scene_long : world :=
  scene 25743 (plain_file ("0.50 0.75 1.20 1/123 4567" ++ LF))
    (plain_file ("1e200" ++ LF)) (plain_file ("1" ++ LF)) zero zero zero.

(** A battery at 3 of 200: the ratio 0.015 is half way between two
    hundredths. *)
Definition scene_tie : world :=
  scene 25743 (plain_file ("0.50 0.75 1.20 1/123 4567" ++ LF))
    (plain_file ("3" ++ LF)) (plain_file ("200" ++ LF)) zero zero zero.

(** A battery whose ratio is a little above 0.745. *)
Definition scene_near : world :=
  scene 25743 (plain_file ("0.50 0.75 1.20 1/123 4567" ++ LF))
    (plain_file ("72938733095461" ++ LF)) (plain_file ("97904339725451" ++ LF))
    zero zero zero.

(** A battery whose full energy reads zero. *)
Definition scene_flat : world :=
  scene 25743 (plain_file ("0.50 0.75 1.20 1/123 4567" ++ LF))
    (plain_file ("5000" ++ LF)) (plain_file ("0" ++ LF)) zero zero zero.

(** The energy_now file answers with EIO. *)
Definition scene_fault : world :=
  scene 25743 (plain_file ("0.50 0.75 1.20 1/123 4567" ++ LF))
    (broken_file EIO) (plain_file ("10000" ++ LF)) zero zero zero.

(** The texts of the GNU C library on x86-64. *)
Definition gnu_nan : string := "-nan".

Definition gnu_strerror (e : Z) : string :=
  if e =? EIO then "Input/output error"
  else if e =? EINVAL then "Invalid argument"
  else "Unknown error".

(** The battery fraction in the words of the description: [now / full]
    rounded to two decimals (a tie to the even hundredth, as [printf] rounds). *)
Definition spec_fraction_text (now full : Z) : string :=
  fixed_text 2 (div_half_even (100 * now) full).

(** The names the turns of a run gave to the root window, oldest first. *)
Fixpoint names_shown (es : list event) : list string :=
  match es with
  | [] => []
  | EvXStoreName s :: es' => s :: names_shown es'
  | _ :: es' => names_shown es'
  end.

Definition shown (c : config) : list string :=
  match c with
  | Running _ p | Exiting _ _ _ p | Exited _ p | Killed _ p | Undefined p =>
      names_shown (actions p)
  end.

(** ** More of [main]: the order of its steps *)

(** The signals [main] installs [onsignal] for, and the paths it opens, in
    the order of the source. *)
Definition sig_order : list Z := [SIGHUP; SIGINT; SIGTERM].
Definition open_order : list string := [LOADAVG; ENGYNOW; ENGYFUL].

(** The descriptors of the three reads of the loop body, in order. *)
Definition read_order : list (frame -> Z) := [loadavg; engynow; engyful].

(** A number below 100 as two decimal digits. *)
Definition two_digits (n : Z) : string :=
  String (digit_char (n / 10)) (String (digit_char (n mod 10)) "").

(** The store logs of the arrays of the loop body stay inside the arrays,
    but for the index 128 of [nam]. *)
Definition in_range (cap : Z) (a : array) : Prop :=
  capacity a = cap /\ Forall (fun i => 0 <= i < cap) (stores a).

Definition tidy (l : label) (f : frame) : Prop :=
  match l with
  | L_time => True
  | L_store | L_flush | L_sleep =>
      in_range 32 (avg f) /\ in_range 32 (now f) /\ in_range 32 (ful f) /\
      capacity (nam f) = 128 /\
      Forall (fun i => 0 <= i < 128 \/ (i = 128 /\ 128 <= ret f mod SIZE_MAX1))
        (stores (nam f))
  | _ =>
      in_range 32 (avg f) /\ in_range 32 (now f) /\ in_range 32 (ful f) /\
      in_range 128 (nam f)
  end.

(** Two frames with the same three descriptors. *)
Definition same_fds (f g : frame) : Prop :=
  loadavg f = loadavg g /\ engynow f = engynow g /\ engyful f = engyful g.


(** *** More scenes *)

(** Starts of [main] that fail: no display; [sigaction] refuses SIGINT; the
    energy_now file cannot be opened. *)
Definition boot_no_display : boot :=
  Boot false ":7" (fun _ => None) (fun _ => inl 3).

Definition boot_no_sigint : boot :=
  Boot true ":0" (fun sig => if sig =? SIGINT then Some EINVAL else None)
    (fun _ => inl 3).

Definition boot_no_battery : boot :=
  Boot true ":0" (fun _ => None)
    (fun path =>
       if String.eqb path LOADAVG then inl 3
       else if String.eqb path ENGYNOW then inr EIO else inl 5).

(** The scene of the end-to-end example under another load. *)
Definition scene_busy : world :=
  scene 25743 (plain_file ("9.99 8.88 7.77 5/321 7654" ++ LF))
    (plain_file ("5000" ++ LF)) (plain_file ("10000" ++ LF)) zero zero zero.

(** An energy_full file with nothing in it. *)
Definition scene_empty : world :=
  scene 25743 (plain_file ("0.50 0.75 1.20 1/123 4567" ++ LF))
    (plain_file ("5000" ++ LF)) (plain_file "") zero zero zero.

(** Reduction of the frame and process accessors, for the proofs that follow
    the loop body statement by statement. *)
Ltac frame_simpl :=
  cbn [step exec vars set_vars set_errno emit enter assign3
       with_avg with_now with_ful with_nam with_ret
       loadavg engynow engyful nam avg now ful tm_hour tm_min tm_sec
       avg1 avg5 avg15 ret errno exit_fns sig_caught actions
       lookup list_lookup default].

(** Steps of the proofs that follow a turn read by read: a read that
    succeeds (by the lemma [fresh_read]), and one that fails and ends the
    process (by the lemmas [fault_read], [message] and [exits]). *)
Ltac read_ok fresh_read H :=
  match goal with
  | |- context [cat ?w ?fd (auto_array 32 ?j) 32 ?q] =>
      let r := fresh "r" in let b := fresh "b" in
      let E := fresh "E" in let R := fresh "R" in let S := fresh "S" in
      destruct (fresh_read w fd j q H) as (r & b & E & R & S);
      rewrite E; destruct (Z.ltb_spec r 0) as [?|_]; [lia|]; frame_simpl
  end.

Ltac read_fails fault_read message exits H :=
  rewrite (fault_read _ _ _ _ _ H); cbn [Z.ltb Z.compare];
  unfold die; rewrite message;
  match goal with
  | |- context [c_exit ?st ?q] =>
      let p' := fresh "p'" in let Hact := fresh "Hact" in
      destruct (exits st q) as (p' & -> & Hact);
      cbn [step]; exists p'; split; [reflexivity|];
      rewrite Hact; frame_simpl; rewrite <- ?app_assoc; reflexivity
  end.

(** * Properties *)

(** ** Arrays *)

Lemma capacity_store a i c : capacity (store a i c) = capacity a.
Proof.
  unfold capacity, store; simpl.
  destruct (in_bounds a i); [rewrite length_insert|]; reflexivity.
Qed.

Lemma capacity_store_seq cs : forall a i, capacity (store_seq a i cs) = capacity a.
Proof.
  induction cs as [|c cs IH]; intros a i; simpl; [reflexivity|].
  rewrite IH. apply capacity_store.
Qed.

Lemma stores_store_seq cs :
  forall a i, stores (store_seq a i cs) = (reverse (run_of i (length cs)) ++ stores a)%list.
Proof.
  induction cs as [|c cs IH]; intros a i; simpl; [reflexivity|].
  rewrite IH. simpl. rewrite reverse_cons, <- app_assoc. reflexivity.
Qed.

Lemma run_of_bounds n : forall i j, j ∈ run_of i n -> i <= j < i + Z.of_nat n.
Proof.
  induction n as [|n IH]; intros i j Hj; simpl in Hj.
  - inversion Hj.
  - apply elem_of_cons in Hj as [->|Hj]; [lia|].
    apply IH in Hj. lia.
Qed.

Lemma stores_since_app a b l :
  stores b = (l ++ stores a)%list -> stores_since a b = l.
Proof.
  intros E. unfold stores_since. rewrite E, length_app.
  replace (length l + length (stores a) - length (stores a))%nat with (length l) by lia.
  apply take_app_length.
Qed.

(** Stores over a part of the array that is there replace that part. *)
Lemma cells_store_seq cs :
  forall a pre old post,
    cells a = (pre ++ old ++ post)%list ->
    length old = length cs ->
    cells (store_seq a (Z.of_nat (length pre)) cs) = (pre ++ cs ++ post)%list.
Proof.
  induction cs as [|c cs IH]; intros a pre old post Ha Hl.
  - destruct old; [|discriminate]. exact Ha.
  - destruct old as [|o old]; [discriminate|]. simpl.
    replace (Z.of_nat (length pre) + 1) with (Z.of_nat (length (pre ++ [c]))).
    2:{ rewrite length_app. simpl. lia. }
    rewrite (IH _ (pre ++ [c])%list old post).
    + rewrite <- app_assoc. reflexivity.
    + unfold store. simpl.
      assert (Hb : in_bounds a (Z.of_nat (length pre)) = true).
      { unfold in_bounds, capacity. rewrite Ha, length_app. simpl.
        apply andb_true_intro. split; [apply Z.leb_le|apply Z.ltb_lt]; lia. }
      rewrite Hb, Nat2Z.id, Ha.
      replace (length pre) with (length pre + 0)%nat at 1 by lia.
      rewrite insert_app_r. simpl. rewrite <- app_assoc. reflexivity.
    + simpl in Hl. lia.
Qed.

Lemma cells_store_seq_0 cs a :
  (length cs <= length (cells a))%nat ->
  cells (store_seq a 0 cs) = (cs ++ drop (length cs) (cells a))%list.
Proof.
  intros Hl.
  apply (cells_store_seq cs a [] (take (length cs) (cells a))).
  - simpl. symmetry. apply take_drop.
  - rewrite length_take. lia.
Qed.

Lemma strz_app_nul bs rest : strz (bs ++ NUL :: rest) = strz bs.
Proof.
  induction bs as [|b bs IH]; simpl; [reflexivity|].
  destruct (Ascii.eqb b NUL); [reflexivity|]. rewrite IH. reflexivity.
Qed.

(** Characters stored from the start of an array, and a NUL after them. *)
Lemma cells_terminated buf bs :
  (length bs < length (cells buf))%nat ->
  cells (store (store_seq buf 0 bs) (Z.of_nat (length bs)) NUL)
  = (bs ++ NUL :: drop (S (length bs)) (cells buf))%list.
Proof.
  intros Hfit.
  pose proof (cells_store_seq_0 bs buf ltac:(lia)) as Hc.
  unfold store.
  assert (Hb : in_bounds (store_seq buf 0 bs) (Z.of_nat (length bs)) = true).
  { unfold in_bounds. rewrite capacity_store_seq. unfold capacity.
    apply andb_true_intro. split; [apply Z.leb_le|apply Z.ltb_lt]; lia. }
  rewrite Hb. simpl. rewrite Hc, Nat2Z.id.
  replace (length bs) with (length bs + 0)%nat at 1 by lia.
  rewrite insert_app_r.
  destruct (drop (length bs) (cells buf)) as [|c rest] eqn:Hd.
  - apply (f_equal length) in Hd. rewrite length_drop in Hd. simpl in Hd. lia.
  - simpl. f_equal. f_equal.
    replace (S (length bs)) with (length bs + 1)%nat by lia.
    rewrite <- drop_drop, Hd. reflexivity.
Qed.

Lemma c_str_terminated buf bs :
  (length bs < length (cells buf))%nat ->
  c_str (store (store_seq buf 0 bs) (Z.of_nat (length bs)) NUL)
  = string_of_list_ascii (strz bs).
Proof.
  intros Hfit. unfold c_str. rewrite (cells_terminated _ _ Hfit), strz_app_nul.
  reflexivity.
Qed.

(** A store outside an array leaves the string it holds. *)
Lemma c_str_store_outside a i c :
  in_bounds a i = false -> c_str (store a i c) = c_str a.
Proof. intros H. unfold c_str, store. simpl. rewrite H. reflexivity. Qed.

(** ** [cat] *)

Lemma size_minus_one len : 0 < len < SIZE_MAX1 -> (len - 1) mod SIZE_MAX1 = len - 1.
Proof. intros H. apply Z.mod_small. lia. Qed.

Lemma length_pread_bytes f count offset :
  (length (pread_bytes f count offset) <= Z.to_nat count)%nat.
Proof. unfold pread_bytes. rewrite length_take. lia. Qed.

Lemma pread_bytes_prefix f count :
  pread_bytes f count 0 = take (length (pread_bytes f count 0)) (f_data f).
Proof.
  unfold pread_bytes. change (Z.to_nat 0) with 0%nat. rewrite drop_0, length_take.
  generalize (Nat.min (Z.to_nat count) (f_chunk f)). intros n.
  destruct (Nat.le_ge_cases n (length (f_data f))) as [H|H].
  - rewrite Nat.min_l by exact H. reflexivity.
  - rewrite Nat.min_r by exact H. rewrite !take_ge by lia. reflexivity.
Qed.

(** What [cat] does when the length passes the check, by the outcome of the
    read. *)
Lemma cat_unfold w fd buf len p :
  0 < len < SIZE_MAX1 ->
  cat w fd buf len p =
    match f_fault (w_file w fd) with
    | Some e => (-1, buf, set_errno e (emit (EvPread fd (len - 1) 0) p))
    | None =>
        let bs := pread_bytes (w_file w fd) (len - 1) 0 in
        (Z.of_nat (length bs),
         store (store_seq buf 0 bs) (Z.of_nat (length bs)) NUL,
         emit (EvPread fd (len - 1) 0) p)
    end.
Proof.
  intros H. unfold cat, pread.
  destruct (Z.leb_spec len 0) as [?|_]; [lia|].
  rewrite (size_minus_one len H).
  destruct (f_fault (w_file w fd)) as [e|]; [reflexivity|]. simpl.
  destruct (Z.leb_spec 0 (Z.of_nat (length (pread_bytes (w_file w fd) (len - 1) 0))));
    [reflexivity|lia].
Qed.

(** C7: a call of [cat] with capacity zero fails: it returns -1 with errno
    EINVAL, makes no read and stores nothing into the buffer. *)
Theorem cat_zero_capacity (w : world) (fd : Z) (buf : array) (p : proc) :
  let '(r, buf', p') := cat w fd buf 0 p in
  r = -1 /\ errno p' = EINVAL /\ actions p' = actions p /\ buf' = buf.
Proof. simpl. repeat split. Qed.

(** C9: when a call of [cat] with a positive capacity returns a negative
    value, the read failed and [cat] stored nothing: the buffer, cells and
    store log, is the one it was given, with no terminator added. *)
Theorem cat_failed_read_leaves_buffer
  (w : world) (fd : Z) (buf : array) (len : Z) (p : proc)
  (r : Z) (buf' : array) (p' : proc) :
  0 < len < SIZE_MAX1 ->
  cat w fd buf len p = (r, buf', p') ->
  r < 0 ->
  buf' = buf /\ stores_since buf buf' = [] /\
  exists e, f_fault (w_file w fd) = Some e /\ errno p' = e.
Proof.
  intros Hlen Hcat Hr. rewrite (cat_unfold _ _ _ _ _ Hlen) in Hcat.
  destruct (f_fault (w_file w fd)) as [e|].
  - injection Hcat as <- <- <-. split; [reflexivity|]. split.
    + apply (stores_since_app buf buf []). reflexivity.
    + exists e. split; reflexivity.
  - simpl in Hcat. injection Hcat as <- _ _. lia.
Qed.

(** C10: every index [cat] stores to is below the capacity it was given: the
    bytes read go to the indices 0 .. ret - 1 with ret <= len - 1, and the
    terminator to the index ret. *)
Theorem cat_stores_in_bounds
  (w : world) (fd : Z) (buf : array) (len : Z) (p : proc)
  (r : Z) (buf' : array) (p' : proc) :
  0 < len < SIZE_MAX1 ->
  cat w fd buf len p = (r, buf', p') ->
  Forall (fun i => 0 <= i < len) (stores_since buf buf') /\
  (0 <= r -> r <= len - 1 /\
             stores_since buf buf' = r :: reverse (run_of 0 (Z.to_nat r))) /\
  (r < 0 -> stores_since buf buf' = []).
Proof.
  intros Hlen Hcat. rewrite (cat_unfold _ _ _ _ _ Hlen) in Hcat.
  destruct (f_fault (w_file w fd)) as [e|].
  - injection Hcat as <- <- <-.
    rewrite (stores_since_app buf buf []) by reflexivity.
    repeat split; [constructor|lia|lia].
  - simpl in Hcat. injection Hcat as <- <- _.
    set (bs := pread_bytes (w_file w fd) (len - 1) 0).
    pose proof (length_pread_bytes (w_file w fd) (len - 1) 0) as Hbs. fold bs in Hbs.
    assert (Hs : stores_since buf (store (store_seq buf 0 bs) (Z.of_nat (length bs)) NUL)
                 = Z.of_nat (length bs) :: reverse (run_of 0 (length bs))).
    { apply stores_since_app. simpl. rewrite stores_store_seq. reflexivity. }
    rewrite Hs, Nat2Z.id. repeat split; try lia.
    apply Forall_cons. split; [lia|].
    apply Forall_forall. intros j Hj.
    rewrite elem_of_reverse in Hj. apply run_of_bounds in Hj. lia.
Qed.

(** C6: a call of [cat] with a positive capacity that succeeds makes one
    [pread] of len - 1 bytes at offset zero; it returns the number ret of
    bytes read, ret <= len - 1; the buffer then holds the first ret bytes of
    the file and a NUL right after them; and the outcome is the same wherever
    earlier reads left the offsets of the descriptors. *)
Theorem cat_reads_from_start
  (w : world) (fd : Z) (buf : array) (len : Z) (p : proc)
  (r : Z) (buf' : array) (p' : proc) :
  0 < len < SIZE_MAX1 ->
  len <= capacity buf ->
  cat w fd buf len p = (r, buf', p') ->
  0 <= r ->
  r <= len - 1 /\
  (Z.to_nat r <= length (f_data (w_file w fd)))%nat /\
  (exists rest,
     cells buf' = (take (Z.to_nat r) (f_data (w_file w fd)) ++ NUL :: rest)%list) /\
  actions p' = (actions p ++ [EvPread fd (len - 1) 0])%list /\
  forall pos, cat (seek pos w) fd buf len p = (r, buf', p').
Proof.
  intros Hlen Hcap Hcat Hr.
  assert (Hseek : forall pos, cat (seek pos w) fd buf len p = (r, buf', p')).
  { intros pos. rewrite <- Hcat, !(cat_unfold _ _ _ _ _ Hlen). reflexivity. }
  rewrite (cat_unfold _ _ _ _ _ Hlen) in Hcat.
  destruct (f_fault (w_file w fd)) as [e|].
  { injection Hcat as <- _ _. lia. }
  simpl in Hcat. injection Hcat as <- <- <-.
  set (f := w_file w fd) in *. set (bs := pread_bytes f (len - 1) 0).
  pose proof (length_pread_bytes f (len - 1) 0) as Hbs. fold bs in Hbs.
  pose proof (pread_bytes_prefix f (len - 1)) as Hpre. fold bs in Hpre.
  assert (Hfit : (length bs < length (cells buf))%nat) by (unfold capacity in Hcap; lia).
  rewrite Nat2Z.id. repeat split; try lia; try assumption.
  - rewrite Hpre, length_take. lia.
  - exists (drop (S (length bs)) (cells buf)).
    rewrite <- Hpre. apply cells_terminated. exact Hfit.
Qed.

(** ** The loop body *)

Lemma length_auto_array n junk : length (cells (auto_array n junk)) = n.
Proof. unfold auto_array. simpl. rewrite length_map, length_seq. reflexivity. Qed.

(** A read into a fresh 32-byte array that meets no error. *)
Lemma cat_fresh w fd junk p :
  f_fault (w_file w fd) = None ->
  exists r buf,
    cat w fd (auto_array 32 junk) 32 p = (r, buf, emit (EvPread fd 31 0) p) /\
    0 <= r /\ c_str buf = read_text w fd.
Proof.
  intros Hf. rewrite cat_unfold by (unfold SIZE_MAX1; lia). rewrite Hf.
  change (32 - 1) with 31.
  eexists _, _. split; [reflexivity|]. split; [lia|].
  apply c_str_terminated. rewrite length_auto_array.
  pose proof (length_pread_bytes (w_file w fd) 31 0). lia.
Qed.

(** The conversion specifications of the format given to [sscanf] have a
    precision, which no [scanf] specification has: the first directive fails
    and nothing is stored, whatever the input. *)
Lemma sscanf_stores_nothing (input : string) :
  sscanf input "%.2f %.2f %.2f" = Stored [].
Proof. reflexivity. Qed.

Lemma append_empty_r (s : string) : s ++ "" = s.
Proof. induction s as [|c s IH]; simpl; [|rewrite IH]; reflexivity. Qed.

(** The status format, directive by directive. *)
Lemma format_status h m s l1 l5 l15 b :
  format status_fmt
    [PUInt h; PUInt m; PUInt s; PDouble l1; PDouble l5; PDouble l15; PDouble b]
  = Some (status_text h m s l1 l5 l15 b).
Proof.
  unfold format, status_fmt, status_text.
  cbv -[fmt_u fmt_f append]. rewrite append_empty_r. reflexivity.
Qed.

Lemma format_read path msg :
  format read_fmt [PStr path; PStr msg]
  = Some ("Failed to read from “" ++ path ++ "”: " ++ msg ++ LF).
Proof.
  unfold format, read_fmt. cbv -[append]. simpl. reflexivity.
Qed.

(** [snprintf] of the status line into a 128-byte array. *)
Lemma snprintf_status buf h m s l1 l5 l15 b :
  length (cells buf) = 128%nat ->
  let text := status_text h m s l1 l5 l15 b in
  let kept := take 127 (list_ascii_of_string text) in
  snprintf buf 128 status_fmt
    [PUInt h; PUInt m; PUInt s; PDouble l1; PDouble l5; PDouble l15; PDouble b]
  = Some (Z.of_nat (String.length text),
          store (store_seq buf 0 kept) (Z.of_nat (length kept)) NUL).
Proof.
  intros Hcap text kept. unfold snprintf. rewrite format_status. reflexivity.
Qed.

(** One turn of the loop when the three reads succeed. *)
Lemma turn_runs w p :
  let f := vars p in
  let text := turn_text w f in
  let kept := take 127 (list_ascii_of_string text) in
  let nam1 :=
    store (store_seq (auto_array 128 (junk_nam w)) 0 kept) (Z.of_nat (length kept)) NUL in
  readable w f ->
  exists p',
    loop_body w p = Running L_time p' /\
    errno p' = errno p /\ exit_fns p' = exit_fns p /\ sig_caught p' = sig_caught p /\
    actions p' =
      (actions p ++
       [EvPread (loadavg f) 31 0; EvPread (engynow f) 31 0; EvPread (engyful f) 31 0;
        EvXStoreName (kept_of text); EvXFlush; EvSleep 1])%list /\
    ret (vars p') = Z.of_nat (String.length text) /\
    nam (vars p') =
      (if 128 <=? ret (vars p') mod SIZE_MAX1 then store nam1 128 NUL else nam1) /\
    avg1 (vars p') = junk_avg1 w /\ avg5 (vars p') = junk_avg5 w /\
    avg15 (vars p') = junk_avg15 w.
Proof.
  intros f text kept nam1 (Ha & Hn & Hu).
  unfold loop_body. cbn [Nat.iter nat_rect]. frame_simpl. fold f.
  destruct (cat_fresh w (loadavg f) (junk_avg w) (set_vars (enter w f) p) Ha)
    as (r1 & b1 & E1 & R1 & S1).
  rewrite E1. destruct (Z.ltb_spec r1 0) as [?|_]; [lia|].
  frame_simpl. rewrite sscanf_stores_nothing. frame_simpl.
  match goal with |- context [cat w (engynow f) _ 32 ?q] =>
    destruct (cat_fresh w (engynow f) (junk_now w) q Hn) as (r2 & b2 & E2 & R2 & S2)
  end.
  rewrite E2. destruct (Z.ltb_spec r2 0) as [?|_]; [lia|]. frame_simpl.
  match goal with |- context [cat w (engyful f) _ 32 ?q] =>
    destruct (cat_fresh w (engyful f) (junk_ful w) q Hu) as (r3 & b3 & E3 & R3 & S3)
  end.
  rewrite E3. destruct (Z.ltb_spec r3 0) as [?|_]; [lia|]. frame_simpl.
  rewrite S2, S3.
  rewrite snprintf_status by apply length_auto_array.
  frame_simpl.
  assert (Hname : forall a : array,
             a = nam1 \/ a = store nam1 128 NUL -> c_str a = kept_of text).
  { assert (H1 : c_str nam1 = kept_of text).
    { apply c_str_terminated. rewrite length_auto_array.
      subst kept. rewrite length_take. lia. }
    intros a [->| ->]; [exact H1|].
    rewrite c_str_store_outside; [exact H1|].
    unfold in_bounds. subst nam1. rewrite capacity_store, capacity_store_seq.
    unfold capacity. rewrite length_auto_array. reflexivity. }
  fold (fraction w f). fold (turn_text w f). fold text. fold kept. fold nam1.
  destruct (128 <=? Z.of_nat (String.length text) mod SIZE_MAX1) eqn:Hlong;
    frame_simpl; rewrite ?Hlong.
  - eexists. split; [reflexivity|]. frame_simpl. rewrite Hlong.
    rewrite (Hname _ (or_intror eq_refl)), <- !app_assoc.
    repeat split; reflexivity.
  - eexists. split; [reflexivity|]. frame_simpl. rewrite Hlong.
    rewrite (Hname _ (or_introl eq_refl)), <- !app_assoc.
    repeat split; reflexivity.
Qed.

Lemma append_assoc (a b c : string) : a ++ b ++ c = (a ++ b) ++ c.
Proof. induction a as [|x a IH]; simpl; [|rewrite IH]; reflexivity. Qed.

(** The status line ends with the battery fraction. *)
Lemma status_text_ends h m s l1 l5 l15 b :
  exists head, status_text h m s l1 l5 l15 b = head ++ fmt_f 2 b.
Proof.
  unfold status_text. eexists. rewrite !append_assoc. reflexivity.
Qed.

(** Dividing by a zero never gives a finite value. *)
Lemma ddiv_by_zero x s : is_finite (ddiv x (S754_zero s)) = false.
Proof. destruct x; reflexivity. Qed.

(** C8: in a turn in which the full-energy text parses to zero, the quotient
    is computed all the same and is not finite; it is the value the last
    [%.2f] conversion of the status line prints; the turn does not end the
    process: the line goes to the root window and the loop is back at its
    first statement. *)
Theorem zero_full_energy_is_formatted (w : world) (p : proc) (s : bool) :
  readable w (vars p) ->
  atof (read_text w (engyful (vars p))) = S754_zero s ->
  is_finite (fraction w (vars p)) = false /\
  (exists head, turn_text w (vars p) = head ++ fmt_f 2 (fraction w (vars p))) /\
  exists p',
    loop_body w p = Running L_time p' /\
    actions p' =
      (actions p ++
       [EvPread (loadavg (vars p)) 31 0; EvPread (engynow (vars p)) 31 0;
        EvPread (engyful (vars p)) 31 0;
        EvXStoreName (kept_of (turn_text w (vars p))); EvXFlush; EvSleep 1])%list.
Proof.
  intros Hr Hz. split; [|split].
  - unfold fraction. rewrite Hz. apply ddiv_by_zero.
  - apply status_text_ends.
  - destruct (turn_runs w p Hr) as (p' & Hrun & _ & _ & _ & Hact & _).
    exists p'. split; assumption.
Qed.

(** ** Ending the process *)

Lemma actions_exit_fns fs :
  forall q,
    actions (fold_left (fun q f => call_exit_fn f q) fs q)
    = (actions q ++ exit_actions fs)%list.
Proof.
  induction fs as [|[] fs IH]; intros q; simpl.
  - rewrite app_nil_r. reflexivity.
  - rewrite IH. unfold onexit. simpl. rewrite <- !app_assoc. reflexivity.
Qed.

Lemma c_exit_actions status p :
  exists p',
    c_exit status p = Exited status p' /\
    actions p' = (actions p ++ exit_actions (exit_fns p))%list.
Proof.
  unfold c_exit. eexists. split; [reflexivity|].
  rewrite actions_exit_fns. reflexivity.
Qed.

(** C4: when the read of one of the three files fails, at whatever turn, the
    statement ends the process with the failure status, which is not zero:
    after the one [pread] the program writes to stderr the message with the
    path of that file and the text [strerror] gives for the error, and then
    only the exit functions run; the file is not read again. *)
Theorem read_failure_is_fatal
  (w : world) (p : proc) (l : label) (fd : frame -> Z) (path : string) (e : Z) :
  (l, fd, path) ∈ read_sources ->
  f_fault (w_file w (fd (vars p))) = Some e ->
  exists p',
    exec w l p = Exited EXIT_FAILURE p' /\
    EXIT_FAILURE <> 0 /\
    actions p' =
      (actions p ++
       [EvPread (fd (vars p)) 31 0;
        EvStderr ("Failed to read from “" ++ path ++ "”: " ++ strerror e ++ LF)] ++
       exit_actions (exit_fns p))%list.
Proof.
  intros Hin Hf.
  assert (Hcat : forall buf,
             cat w (fd (vars p)) buf 32 p
             = (-1, buf, set_errno e (emit (EvPread (fd (vars p)) 31 0) p))).
  { intros buf. rewrite cat_unfold by (unfold SIZE_MAX1; lia). rewrite Hf. reflexivity. }
  unfold read_sources in Hin.
  repeat (apply elem_of_cons in Hin as [Hin|Hin]); try (inversion Hin; fail);
    injection Hin as -> -> ->; cbn [exec]; rewrite Hcat; cbn [Z.ltb Z.compare];
    unfold die; rewrite format_read;
    match goal with |- context [c_exit ?st ?q] =>
      destruct (c_exit_actions st q) as (p' & -> & Hact)
    end;
    exists p'; (split; [reflexivity|]); (split; [discriminate|]);
    rewrite Hact; frame_simpl; rewrite <- !app_assoc; reflexivity.
Qed.

Lemma closes_app a b : closes (a ++ b) = (closes a + closes b)%nat.
Proof. unfold closes. rewrite List.filter_app, length_app. reflexivity. Qed.

Lemma resets_app a b : resets (a ++ b) = (resets a + resets b)%nat.
Proof. unfold resets. rewrite List.filter_app, length_app. reflexivity. Qed.

Lemma die_ends fmt args p l q : die fmt args p <> Running l q.
Proof. unfold die, c_exit. destruct (format fmt args); discriminate. Qed.

(** *** The status line is never empty *)

Lemma digit_char_live d : 0 <= d < 10 -> digit_char d <> NUL.
Proof.
  intros H.
  assert (E : d = 0 \/ d = 1 \/ d = 2 \/ d = 3 \/ d = 4 \/ d = 5 \/ d = 6 \/ d = 7
              \/ d = 8 \/ d = 9) by lia.
  repeat (destruct E as [->|E]); try subst d; discriminate.
Qed.

Lemma dec_digits_live fuel :
  forall n acc, live (dec_digits (S fuel) n acc).
Proof.
  induction fuel as [|k IH]; intros n acc.
  - exists (digit_char (n mod 10)), acc. split.
    + simpl. destruct (n <? 10); reflexivity.
    + apply digit_char_live. apply Z.mod_pos_bound. lia.
  - change (dec_digits (S (S k)) n acc)
      with (if n <? 10 then String (digit_char (n mod 10)) acc
            else dec_digits (S k) (n / 10) (String (digit_char (n mod 10)) acc)).
    destruct (n <? 10); [|apply IH].
    exists (digit_char (n mod 10)), acc. split; [reflexivity|].
    apply digit_char_live. apply Z.mod_pos_bound. lia.
Qed.

Lemma live_app a b : live a -> live (a ++ b).
Proof. intros (c & rest & -> & Hc). exists c, (rest ++ b). split; [reflexivity|exact Hc]. Qed.

Lemma live_pad p s : live s -> live (pad_digits p s).
Proof.
  intros Hs. unfold pad_digits. destruct (p - String.length s)%nat as [|k]; [exact Hs|].
  simpl. eexists _, _. split; [reflexivity|discriminate].
Qed.

Lemma live_status h m s l1 l5 l15 b : live (status_text h m s l1 l5 l15 b).
Proof.
  unfold status_text. apply live_app. unfold fmt_u. apply live_pad.
  apply dec_digits_live.
Qed.

Lemma is_reset_live a c rest :
  cells a = c :: rest -> c <> NUL -> is_reset (EvXStoreName (c_str a)) = false.
Proof.
  intros E Hc. unfold c_str. rewrite E. simpl.
  destruct (Ascii.eqb_spec c NUL) as [->|_]; [contradiction|]. reflexivity.
Qed.

(** *** What every statement of the loop keeps *)

(** [cat] leaves the exit functions and the signal handlers, closes no
    display and names no window. *)
Lemma cat_keeps w fd buf len p r b p' :
  cat w fd buf len p = (r, b, p') ->
  armed p -> armed p' /\ vars p' = vars p.
Proof.
  unfold cat, armed. destruct (len <=? 0).
  - intros [= _ _ <-] H. split; [exact H|reflexivity].
  - destruct (pread _ _ _ _) as [[r0 b0] [e|]]; intros [= _ _ <-] (H1 & H2 & H3 & H4);
      simpl; rewrite closes_app, resets_app, H3, H4; repeat split; assumption.
Qed.

Lemma exec_keeps w l p l' p' :
  exec w l p = Running l' p' ->
  armed p -> nam_at l (nam (vars p)) ->
  armed p' /\ nam_at l' (nam (vars p')).
Proof.
  destruct l; cbn [exec]; intros E A N.
  - injection E as <- <-. split; [exact A|]. apply length_auto_array.
  - destruct (cat _ _ _ _ _) as [[r b] p1] eqn:C. apply cat_keeps in C as [A1 V]; [|exact A].
    destruct (r <? 0); [exfalso; exact (die_ends _ _ _ _ _ E)|].
    injection E as <- <-. split; [exact A1|exact N].
  - destruct (sscanf _ _); [|discriminate]. injection E as <- <-.
    split; [exact A|exact N].
  - destruct (cat _ _ _ _ _) as [[r b] p1] eqn:C. apply cat_keeps in C as [A1 V]; [|exact A].
    destruct (r <? 0); [exfalso; exact (die_ends _ _ _ _ _ E)|].
    injection E as <- <-. split; [exact A1|exact N].
  - destruct (cat _ _ _ _ _) as [[r b] p1] eqn:C. apply cat_keeps in C as [A1 V]; [|exact A].
    destruct (r <? 0); [exfalso; exact (die_ends _ _ _ _ _ E)|].
    injection E as <- <-. split; [exact A1|exact N].
  - cbn [nam_at] in N. rewrite (snprintf_status _ _ _ _ _ _ _ _ N) in E.
    injection E as <- <-. split; [exact A|]. cbn [nam_at]. frame_simpl.
    match goal with |- context [status_text ?h ?m ?s ?a ?b ?c ?d] =>
      destruct (live_status h m s a b c d) as (c0 & rest & Ht & Hc); rewrite Ht
    end.
    rewrite cells_terminated by (rewrite length_take; lia).
    simpl. eexists _, _. split; [reflexivity|exact Hc].
  - destruct N as (c & rest & Hn & Hc).
    destruct (128 <=? _); injection E as <- <-; (split; [exact A|]); cbn [nam_at];
      frame_simpl; [|exists c, rest; split; assumption].
    unfold store. simpl. destruct (in_bounds _ _); rewrite Hn; simpl;
      exists c; eexists; (split; [reflexivity|exact Hc]).
  - destruct N as (c & rest & Hn & Hc). injection E as <- <-. split; [|exact I].
    destruct A as (A1 & A2 & A3 & A4). unfold armed. frame_simpl.
    rewrite closes_app, resets_app, A3, A4.
    assert (Hres : resets [EvXStoreName (c_str (nam (vars p)))] = 0%nat).
    { unfold resets. cbn [List.filter]. rewrite (is_reset_live _ _ _ Hn Hc). reflexivity. }
    rewrite Hres. repeat split; assumption.
  - injection E as <- <-. split; [|exact I].
    destruct A as (A1 & A2 & A3 & A4). unfold armed. simpl.
    rewrite closes_app, resets_app, A3, A4. repeat split; assumption.
  - injection E as <- <-. split; [|exact I].
    destruct A as (A1 & A2 & A3 & A4). unfold armed. simpl.
    rewrite closes_app, resets_app, A3, A4. repeat split; assumption.
Qed.

Lemma startup_armed b f l p :
  startup b (fresh f) = Running l p -> l = L_time /\ armed p.
Proof.
  unfold startup. destruct (b_display b); cbn [negb];
    [|intros H; exfalso; exact (die_ends _ _ _ _ _ H)].
  unfold c_sigaction, c_open.
  destruct (b_sigaction b SIGHUP); cbn [fst snd];
    [intros H; exfalso; exact (die_ends _ _ _ _ _ H)|].
  destruct (b_sigaction b SIGINT); cbn [fst snd];
    [intros H; exfalso; exact (die_ends _ _ _ _ _ H)|].
  destruct (b_sigaction b SIGTERM); cbn [fst snd];
    [intros H; exfalso; exact (die_ends _ _ _ _ _ H)|].
  destruct (b_open b LOADAVG) as [fd1|e1]; cbn [fst snd];
    [|intros H; exfalso; exact (die_ends _ _ _ _ _ H)].
  destruct (fd1 <? 0); [intros H; exfalso; exact (die_ends _ _ _ _ _ H)|].
  destruct (b_open b ENGYNOW) as [fd2|e2]; cbn [fst snd];
    [|intros H; exfalso; exact (die_ends _ _ _ _ _ H)].
  destruct (fd2 <? 0); [intros H; exfalso; exact (die_ends _ _ _ _ _ H)|].
  destruct (b_open b ENGYFUL) as [fd3|e3]; cbn [fst snd];
    [|intros H; exfalso; exact (die_ends _ _ _ _ _ H)].
  destruct (fd3 <? 0); [intros H; exfalso; exact (die_ends _ _ _ _ _ H)|].
  intros [= <- <-]. split; [reflexivity|]. unfold armed. simpl.
  split; [reflexivity|split; [|split; reflexivity]].
  intros sig Hs. rewrite !elem_of_cons in Hs. rewrite !elem_of_cons.
  destruct Hs as [->|[->|[->|Hs]]]; auto; inversion Hs.
Qed.

Lemma reachable_armed c :
  reachable c -> forall l p, c = Running l p -> armed p /\ nam_at l (nam (vars p)).
Proof.
  induction 1 as [b f|w c Hc IH]; intros l p E.
  - destruct (startup_armed _ _ _ _ E) as [-> A]. split; [exact A|exact I].
  - destruct c as [l0 p0| | | |]; try discriminate. cbn [step] in E.
    destruct (IH l0 p0 eq_refl) as [A N].
    exact (exec_keeps _ _ _ _ _ E A N).
Qed.

(** ** Binary64 division of a value by a larger one *)

Lemma digits2_bounds p :
  2 ^ (Z.pos (digits2_pos p) - 1) <= Z.pos p < 2 ^ Z.pos (digits2_pos p).
Proof.
  induction p as [p IH|p IH|]; simpl digits2_pos.
  - rewrite Pos2Z.inj_succ.
    replace (Z.succ (Z.pos (digits2_pos p)) - 1) with (Z.succ (Z.pos (digits2_pos p) - 1)) by lia.
    rewrite !Z.pow_succ_r by lia. lia.
  - rewrite Pos2Z.inj_succ.
    replace (Z.succ (Z.pos (digits2_pos p)) - 1) with (Z.succ (Z.pos (digits2_pos p) - 1)) by lia.
    rewrite !Z.pow_succ_r by lia. lia.
  - simpl. lia.
Qed.

(** A mantissa of at most [2^n] has at most [n + 1] digits. *)
Lemma Zdigits2_le m n : 0 <= n -> 0 <= m <= 2 ^ n -> Zdigits2 m <= n + 1.
Proof.
  intros Hn [H0 Hm]. destruct m as [|p|p]; simpl; [lia| |lia].
  pose proof (digits2_bounds p) as [Hd _].
  destruct (Z_lt_le_dec n (Z.pos (digits2_pos p) - 1)) as [Hlt|]; [|lia].
  apply (Z.pow_lt_mono_r 2) in Hlt; lia.
Qed.

Lemma under_shr_1 b mrs : 0 <= b -> under (2 * b) mrs -> under b (shr_1 mrs).
Proof.
  intros Hb [[H0 Hm] Hi]. destruct mrs as [m r s]. simpl in *.
  destruct m as [|[q|q|]|q]; simpl; unfold under; simpl; try lia;
    (split; [lia|]); intros Hrs; specialize (Hi Hrs); lia.
Qed.

Lemma under_iter_shr p :
  forall b mrs, 0 <= b -> under (2 ^ Z.pos p * b) mrs -> under b (SpecFloat.iter_pos shr_1 p mrs).
Proof.
  induction p as [p IH|p IH|]; intros b mrs Hb H; simpl.
  - apply IH; [exact Hb|]. apply IH; [lia|]. apply under_shr_1; [lia|].
    replace (2 * (2 ^ Z.pos p * (2 ^ Z.pos p * b))) with (2 ^ Z.pos p~1 * b); [exact H|].
    replace (Z.pos p~1) with (Z.pos p + Z.pos p + 1) by lia.
    rewrite !Z.pow_add_r, Z.pow_1_r by lia. ring.
  - apply IH; [exact Hb|]. apply IH; [lia|].
    replace (2 ^ Z.pos p * (2 ^ Z.pos p * b)) with (2 ^ Z.pos p~0 * b); [exact H|].
    replace (Z.pos p~0) with (Z.pos p + Z.pos p) by lia.
    rewrite Z.pow_add_r by lia. ring.
  - apply under_shr_1; [exact Hb|]. exact H.
Qed.

(** Rounding a mantissa that is under [b] stays at most [b]. *)
Lemma round_under b mrs :
  under b mrs ->
  0 <= round_nearest_even (shr_m mrs) (loc_of_shr_record mrs) <= b.
Proof.
  intros [[H0 Hm] Hi]. destruct mrs as [m [] []]; simpl in *;
    try specialize (Hi eq_refl); try destruct (Z.even m); lia.
Qed.

Lemma under_of_loc b m l :
  0 <= m <= b -> (l <> loc_Exact -> m < b) -> under b (shr_record_of_loc m l).
Proof.
  intros Hm Hl. destruct l as [|[]]; unfold under; simpl; (split; [exact Hm|]);
    intros H; try discriminate; apply Hl; discriminate.
Qed.

(** Aligning a value of at most one to its binary64 exponent keeps it at
    most one. *)
Lemma shr_fexp_under m e l :
  e <= 0 -> 0 <= m <= 2 ^ (- e) -> (l <> loc_Exact -> m < 2 ^ (- e)) ->
  let '(mrs, e') := shr_fexp 53 1024 m e l in
  e' <= 0 /\ under (2 ^ (- e')) mrs.
Proof.
  intros He Hm Hl. unfold shr_fexp, shr.
  pose proof (Zdigits2_le m (- e) ltac:(lia) Hm) as Hd.
  pose proof (under_of_loc _ _ _ Hm Hl) as Hu.
  assert (Hf : fexp 53 1024 (Zdigits2 m + e) <= 0).
  { unfold fexp, emin. lia. }
  destruct (fexp 53 1024 (Zdigits2 m + e) - e) as [|n|n] eqn:En.
  - split; assumption.
  - split; [lia|]. apply under_iter_shr; [apply Z.pow_nonneg; lia|].
    rewrite <- Z.pow_add_r by lia.
    replace (Z.pos n + - (e + Z.pos n)) with (- e) by lia. exact Hu.
  - split; assumption.
Qed.

(** Rounding a value of at most one to binary64 gives a zero or a finite
    value of at most one. *)
Lemma binary_round_aux_under mz ez lz :
  ez <= 0 -> 0 <= mz <= 2 ^ (- ez) -> (lz <> loc_Exact -> mz < 2 ^ (- ez)) ->
  match binary_round_aux 53 1024 false mz ez lz with
  | S754_zero s => s = false
  | S754_finite s m e => s = false /\ e <= 0 /\ Z.pos m <= 2 ^ (- e)
  | _ => False
  end.
Proof.
  intros He Hm Hl. unfold binary_round_aux.
  pose proof (shr_fexp_under mz ez lz He Hm Hl) as H1.
  destruct (shr_fexp 53 1024 mz ez lz) as [mrs1 e1]. destruct H1 as [He1 Hu1].
  pose proof (round_under _ _ Hu1) as Hr.
  set (m2 := round_nearest_even (shr_m mrs1) (loc_of_shr_record mrs1)) in *.
  pose proof (shr_fexp_under m2 e1 loc_Exact He1 Hr ltac:(congruence)) as H2.
  destruct (shr_fexp 53 1024 m2 e1 loc_Exact) as [mrs2 e2]. destruct H2 as [He2 [[H0 Hm2] _]].
  destruct (shr_m mrs2) as [|m|m]; [reflexivity| |lia].
  destruct (Z.leb_spec e2 (1024 - 53)); [|lia]. repeat split; assumption.
Qed.

Lemma new_location_exact n : new_location n 0 = loc_Exact.
Proof.
  unfold new_location, new_location_even, new_location_odd.
  destruct (Z.even n); reflexivity.
Qed.

(** The magnitudes compare as the values do. *)
Lemma le_mag_digits mx ex my ey :
  le_mag mx ex my ey ->
  Z.pos (digits2_pos mx) + ex <= Z.pos (digits2_pos my) + ey.
Proof.
  unfold le_mag. intros H.
  pose proof (digits2_bounds mx) as [Hx _]. pose proof (digits2_bounds my) as [_ Hy].
  set (dx := Z.pos (digits2_pos mx)) in *. set (dy := Z.pos (digits2_pos my)) in *.
  assert (0 < dx) by (subst dx; lia). assert (0 < dy) by (subst dy; lia).
  set (k := Z.min ex ey) in *.
  assert (Hlt : 2 ^ (dx - 1 + (ex - k)) < 2 ^ (dy + (ey - k))).
  { rewrite !Z.pow_add_r by lia.
    pose proof (Z.pow_pos_nonneg 2 (ex - k) ltac:(lia) ltac:(lia)).
    pose proof (Z.pow_pos_nonneg 2 (ey - k) ltac:(lia) ltac:(lia)).
    nia. }
  apply Z.pow_lt_mono_r_iff in Hlt; lia.
Qed.

(** The quotient the division computes before rounding is at most one, and
    below one when the division left a remainder. *)
Lemma div_core_under mx ex my ey :
  le_mag mx ex my ey ->
  let '(q, e, l) := SFdiv_core_binary 53 1024 (Z.pos mx) ex (Z.pos my) ey in
  e <= 0 /\ 0 <= q <= 2 ^ (- e) /\ (l <> loc_Exact -> q < 2 ^ (- e)).
Proof.
  intros Hle. pose proof (le_mag_digits _ _ _ _ Hle) as Hd.
  unfold SFdiv_core_binary. cbn [Zdigits2].
  set (e := Z.min (fexp 53 1024 (Z.pos (digits2_pos mx) + ex - (Z.pos (digits2_pos my) + ey)))
                  (ex - ey)).
  assert (He : e <= 0) by (subst e; unfold fexp, emin; lia).
  assert (Hs : 0 <= ex - ey - e) by (subst e; lia).
  set (m' := match ex - ey - e with
             | 0 => Z.pos mx
             | Z.pos _ => Z.shiftl (Z.pos mx) (ex - ey - e)
             | Z.neg _ => 0
             end).
  assert (Hm' : m' = Z.pos mx * 2 ^ (ex - ey - e)).
  { subst m'. destruct (ex - ey - e) as [|s|s] eqn:Es; [simpl; lia| |lia].
    rewrite Z.shiftl_mul_pow2 by lia. reflexivity. }
  assert (Hb : m' <= Z.pos my * 2 ^ (- e)).
  { rewrite Hm'. unfold le_mag in Hle.
    destruct (Z.le_ge_cases ex ey) as [Hc|Hc].
    - rewrite Z.min_l in Hle by exact Hc.
      replace (ex - ex) with 0 in Hle by lia. rewrite Z.pow_0_r in Hle.
      replace (- e) with ((ey - ex) + (ex - ey - e)) by lia.
      rewrite Z.pow_add_r by lia.
      pose proof (Z.pow_pos_nonneg 2 (ex - ey - e) ltac:(lia) Hs). nia.
    - rewrite Z.min_r in Hle by lia.
      replace (ey - ey) with 0 in Hle by lia. rewrite Z.pow_0_r in Hle.
      replace (ex - ey - e) with ((ex - ey) + - e) by lia.
      rewrite Z.pow_add_r by lia.
      pose proof (Z.pow_pos_nonneg 2 (- e) ltac:(lia) ltac:(lia)). nia. }
  assert (H0 : 0 <= m').
  { rewrite Hm'. pose proof (Z.pow_pos_nonneg 2 (ex - ey - e) ltac:(lia) Hs). nia. }
  pose proof (Z_div_mod m' (Z.pos my) ltac:(lia)) as Hdiv.
  destruct (Z.div_eucl m' (Z.pos my)) as [q r]. destruct Hdiv as [Hq Hr].
  pose proof (Z.pow_pos_nonneg 2 (- e) ltac:(lia) ltac:(lia)) as Hp.
  split; [exact He|]. split; [nia|].
  intros Hl. assert (r <> 0).
  { intros ->. apply Hl. apply new_location_exact. }
  nia.
Qed.

(** A non-negative value divided by one that is not smaller: the binary64
    quotient is a zero or a finite value of at most one. *)
Lemma ddiv_under my ey x :
  between_zero_and my ey x ->
  match ddiv x (S754_finite false my ey) with
  | S754_zero s => s = true -> x = S754_zero true
  | S754_finite s m e => s = false /\ e <= 0 /\ Z.pos m <= 2 ^ (- e)
  | _ => False
  end.
Proof.
  destruct x as [s|s| |s mx ex]; simpl; try contradiction.
  - intros _ H. destruct s; [reflexivity|discriminate].
  - destruct s; [contradiction|]. intros Hle.
    pose proof (div_core_under _ _ _ _ Hle) as Hc.
    destruct (SFdiv_core_binary 53 1024 (Z.pos mx) ex (Z.pos my) ey) as [[q e] l].
    destruct Hc as (He & Hq & Hl).
    pose proof (binary_round_aux_under q e l He Hq Hl) as Hr.
    change (xorb false false) with false.
    destruct (binary_round_aux 53 1024 false q e l) as [s0|s0| |s0 m0 e0];
      try contradiction.
    + intros ->. discriminate.
    + exact Hr.
Qed.

(** ** The [%.2f] conversion *)

Lemma div_half_even_nearest a b : 0 < b -> nearest_to (div_half_even a b) a b.
Proof.
  intros Hb. unfold nearest_to, div_half_even.
  pose proof (Z.div_mod a b ltac:(lia)) as Hd.
  pose proof (Z.mod_pos_bound a b Hb) as Hr.
  destruct (Z.compare_spec (2 * (a mod b)) b) as [E|E|E];
    [destruct (Z.even (a / b))| |]; nia.
Qed.

Lemma div_half_even_bounds a b c :
  0 < b -> 0 <= a <= c * b -> 0 <= div_half_even a b <= c.
Proof.
  intros Hb [H0 Hc]. unfold div_half_even.
  pose proof (Z.div_mod a b ltac:(lia)) as Hd.
  pose proof (Z.mod_pos_bound a b Hb) as Hr.
  assert (0 <= a / b) by (apply Z.div_pos; lia).
  assert (a / b <= c) by (apply Z.div_le_upper_bound; lia).
  assert (Hup : 0 < a mod b -> a / b + 1 <= c).
  { intros Hpos. destruct (Z.eq_dec (a / b) c) as [E|E]; [|lia].
    rewrite E in Hd. lia. }
  destruct (Z.compare_spec (2 * (a mod b)) b) as [E|E|E];
    [destruct (Z.even (a / b))| |]; lia.
Qed.

(** The hundredths printed for a finite value are the nearest ones. *)
Lemma scaled_units_nearest m e :
  nearest_to (scaled_units 2 m e) (100 * numerator m e) (denominator e).
Proof.
  unfold scaled_units, numerator, denominator. change (10 ^ Z.of_nat 2) with 100.
  destruct (Z.leb_spec 0 e) as [He|He].
  - rewrite (Z.max_l e 0), (Z.max_r (- e) 0) by lia.
    unfold nearest_to. rewrite Z.pow_0_r. lia.
  - rewrite (Z.max_r e 0), (Z.max_l (- e) 0) by lia. rewrite Z.pow_0_r.
    replace (100 * (Z.pos m * 1)) with (Z.pos m * 100) by lia.
    apply div_half_even_nearest. apply Z.pow_pos_nonneg; lia.
Qed.

(** A value of at most one prints as at most a hundred hundredths. *)
Lemma scaled_units_under m e :
  e <= 0 -> Z.pos m <= 2 ^ (- e) -> 0 <= scaled_units 2 m e <= 100.
Proof.
  intros He Hm. unfold scaled_units. change (10 ^ Z.of_nat 2) with 100.
  destruct (Z.leb_spec 0 e) as [H0|H0].
  - replace e with 0 in * by lia. simpl in *. lia.
  - apply div_half_even_bounds; [apply Z.pow_pos_nonneg; lia|]. lia.
Qed.

(** ** The battery fraction *)

(** Hundredths in fixed notation. *)
Lemma fixed_text_samples :
  fixed_text 2 0 = "0.00" /\ fixed_text 2 7 = "0.07" /\ fixed_text 2 50 = "0.50" /\
  fixed_text 2 100 = "1.00" /\ fixed_text 2 12345 = "123.45".
Proof. repeat split. Qed.

(** C3, amended: in a turn in which the full-energy text parses to a finite
    positive value, the status line ends with the battery fraction, which is
    the binary64 quotient of the two parsed values printed by [%.2f]: when the
    quotient is finite, its exact value rounded to the nearest hundredth, not
    the exact ratio of the readings rounded; and when the parsed energy is
    between zero and the full energy, the fraction printed is between 0.00
    and 1.00. *)
Theorem battery_fraction_field (w : world) (p : proc) (my : positive) (ey : Z) :
  readable w (vars p) ->
  atof (read_text w (engyful (vars p))) = S754_finite false my ey ->
  (exists p',
     loop_body w p = Running L_time p' /\
     names_shown (actions p') =
       (names_shown (actions p) ++ [kept_of (turn_text w (vars p))])%list) /\
  (exists head, turn_text w (vars p) = head ++ fmt_f 2 (fraction w (vars p))) /\
  (forall s m e,
     fraction w (vars p) = S754_finite s m e ->
     fmt_f 2 (fraction w (vars p)) = sign_text s ++ fixed_text 2 (scaled_units 2 m e) /\
     nearest_to (scaled_units 2 m e) (100 * numerator m e) (denominator e)) /\
  (between_zero_and my ey (atof (read_text w (engynow (vars p)))) ->
   exists s units,
     fmt_f 2 (fraction w (vars p)) = sign_text s ++ fixed_text 2 units /\
     0 <= units <= 100 /\
     (s = true -> atof (read_text w (engynow (vars p))) = S754_zero true)).
Proof.
  intros Hr Hy. split; [|split; [|split]].
  - destruct (turn_runs w p Hr) as (p' & Hrun & _ & _ & _ & Hact & _).
    exists p'. split; [exact Hrun|]. rewrite Hact.
    generalize (actions p). intros es.
    induction es as [|[] es IH]; simpl; try rewrite IH; reflexivity.
  - apply status_text_ends.
  - intros s m e Hq. rewrite Hq. split; [reflexivity|]. apply scaled_units_nearest.
  - intros Hx. pose proof (ddiv_under my ey _ Hx) as Hd.
    unfold fraction. rewrite Hy.
    destruct (ddiv (atof (read_text w (engynow (vars p)))) (S754_finite false my ey))
      as [s|s| |s m e]; try contradiction.
    + exists s, 0. split; [reflexivity|]. split; [lia|exact Hd].
    + destruct Hd as (-> & He & Hm). exists false, (scaled_units 2 m e).
      split; [reflexivity|]. split; [apply scaled_units_under; assumption|discriminate].
Qed.

(** ** What the code does where the description says otherwise *)

(** C1: in the scene of the end-to-end example, with zeros on the stack, the
    line shown is "07:09:03  0.00 0.00 0.00  0.50": the [sscanf] call stores
    nothing, so the three load fields print what the stack held, not the
    contents of /proc/loadavg. *)
Theorem end_to_end_loads_not_read :
  shown (loop_body scene_half booted) = ["07:09:03  0.00 0.00 0.00  0.50"] /\
  sscanf (read_text scene_half 3) "%.2f %.2f %.2f" = Stored [] /\
  "07:09:03  0.00 0.00 0.00  0.50" <> "07:09:03  0.50 0.75 1.20  0.50".
Proof.
  split; [vm_compute; reflexivity|]. split; [reflexivity|]. discriminate.
Qed.

(** The loads shown never depend on /proc/loadavg: they are the values the
    stack held at the entry of the loop body. *)
Lemma loads_shown_are_stack_values w p :
  readable w (vars p) ->
  exists p',
    loop_body w p = Running L_time p' /\
    avg1 (vars p') = junk_avg1 w /\ avg5 (vars p') = junk_avg5 w /\
    avg15 (vars p') = junk_avg15 w.
Proof.
  intros Hr. destruct (turn_runs w p Hr) as (p' & Hrun & _ & _ & _ & _ & _ & _ & H).
  exists p'. split; assumption.
Qed.

(** With the conversions written [%lf], the same input gives the line of
    the description. *)
Lemma end_to_end_as_intended :
  exists l1 l5 l15,
    sscanf (read_text scene_half 3) "%lf %lf %lf" = Stored [l1; l5; l15] /\
    status_text 7 9 3 l1 l5 l15 (fraction scene_half (vars booted))
    = "07:09:03  0.50 0.75 1.20  0.50".
Proof.
  eexists _, _, _. split; [vm_compute; reflexivity|]. vm_compute. reflexivity.
Qed.

(** C2: in a turn whose line needs 229 characters, [snprintf] keeps 127 of
    them and a NUL in the 128 cells of [nam], and the statement that follows
    stores a NUL at index 128, which is outside the array. *)
Theorem truncation_stores_past_the_array :
  exists p',
    loop_body scene_long booted = Running L_time p' /\
    ret (vars p') = 229 /\
    capacity (nam (vars p')) = 128 /\
    stores (nam (vars p')) = 128 :: 127 :: reverse (run_of 0 127) /\
    in_bounds (nam (vars p')) 128 = false /\
    cells (nam (vars p')) !! 127%nat = Some NUL /\
    String.length (c_str (nam (vars p'))) = 127%nat.
Proof.
  eexists. split; [vm_compute; reflexivity|].
  repeat split; vm_compute; reflexivity.
Qed.

(** Every turn whose line has 128 characters or more makes that store. *)
Lemma long_line_stores_at_128 w p :
  readable w (vars p) ->
  128 <= Z.of_nat (String.length (turn_text w (vars p))) < SIZE_MAX1 ->
  exists p',
    loop_body w p = Running L_time p' /\
    capacity (nam (vars p')) = 128 /\
    stores (nam (vars p')) = 128 :: 127 :: reverse (run_of 0 127).
Proof.
  intros Hr Hlen.
  destruct (turn_runs w p Hr) as (p' & Hrun & _ & _ & _ & _ & Hret & Hnam & _).
  exists p'. split; [exact Hrun|].
  rewrite Hret, Z.mod_small in Hnam by lia.
  destruct (Z.leb_spec 128 (Z.of_nat (String.length (turn_text w (vars p))))); [|lia].
  rewrite Hnam.
  assert (Hk : length (take 127 (list_ascii_of_string (turn_text w (vars p)))) = 127%nat).
  { rewrite length_take.
    assert (length (list_ascii_of_string (turn_text w (vars p)))
            = String.length (turn_text w (vars p))) as ->; [|lia].
    generalize (turn_text w (vars p)). intros t.
    induction t as [|c t IH]; simpl; [|rewrite IH]; reflexivity. }
  split.
  - rewrite !capacity_store, capacity_store_seq. unfold capacity.
    rewrite length_auto_array. reflexivity.
  - simpl. rewrite stores_store_seq, Hk. simpl. rewrite ?app_nil_r. reflexivity.
Qed.

(** * More of the program *)

(** ** The start of [main] *)

Lemma format_display name :
  format display_fmt [PStr name] = Some ("Unable to open display “" ++ name ++ "”" ++ LF).
Proof. unfold format, display_fmt. cbv -[append]. simpl. reflexivity. Qed.

Lemma format_signal msg :
  format signal_fmt [PStr msg] = Some ("Unable to set signal handler: " ++ msg ++ LF).
Proof. unfold format, signal_fmt. cbv -[append]. simpl. reflexivity. Qed.

Lemma format_open path msg :
  format open_fmt [PStr path; PStr msg]
  = Some ("Failed to open “" ++ path ++ "”: " ++ msg ++ LF).
Proof. unfold format, open_fmt. cbv -[append]. simpl. reflexivity. Qed.

Lemma sig_caught_exit_fns fs :
  forall q, sig_caught (fold_left (fun q f => call_exit_fn f q) fs q) = sig_caught q.
Proof.
  induction fs as [|[] fs IH]; intros q; simpl; [reflexivity|]. rewrite IH. reflexivity.
Qed.

(** What [die] does with a message that formats. *)
Lemma die_formatted fmt args text p :
  format fmt args = Some text ->
  exists p',
    die fmt args p = Exited EXIT_FAILURE p' /\
    actions p' = (actions p ++ EvStderr text :: exit_actions (exit_fns p))%list /\
    sig_caught p' = sig_caught p.
Proof.
  intros E. unfold die. rewrite E. unfold c_exit. eexists. split; [reflexivity|].
  split.
  - rewrite actions_exit_fns. simpl. rewrite <- app_assoc. reflexivity.
  - rewrite sig_caught_exit_fns. reflexivity.
Qed.

(** A start of [main] that reaches the loop met no error. *)
Lemma startup_running_inv b f l p :
  startup b (fresh f) = Running l p ->
  b_display b = true /\
  b_sigaction b SIGHUP = None /\ b_sigaction b SIGINT = None /\
  b_sigaction b SIGTERM = None /\
  exists fd1 fd2 fd3,
    b_open b LOADAVG = inl fd1 /\ b_open b ENGYNOW = inl fd2 /\
    b_open b ENGYFUL = inl fd3 /\ 0 <= fd1 /\ 0 <= fd2 /\ 0 <= fd3 /\
    l = L_time /\
    p = Proc 0 [Fn_onexit] [SIGTERM; SIGINT; SIGHUP] [] (with_fds fd1 fd2 fd3 f).
Proof.
  unfold startup, c_sigaction, c_open.
  destruct (b_display b); cbn [negb];
    [|intros H; exfalso; exact (die_ends _ _ _ _ _ H)].
  destruct (b_sigaction b SIGHUP); cbn [fst snd];
    [intros H; exfalso; exact (die_ends _ _ _ _ _ H)|].
  destruct (b_sigaction b SIGINT); cbn [fst snd];
    [intros H; exfalso; exact (die_ends _ _ _ _ _ H)|].
  destruct (b_sigaction b SIGTERM); cbn [fst snd];
    [intros H; exfalso; exact (die_ends _ _ _ _ _ H)|].
  destruct (b_open b LOADAVG) as [fd1|e1]; cbn [fst snd];
    [|intros H; exfalso; exact (die_ends _ _ _ _ _ H)].
  destruct (Z.ltb_spec fd1 0) as [_|G1]; [intros D; exfalso; exact (die_ends _ _ _ _ _ D)|].
  destruct (b_open b ENGYNOW) as [fd2|e2]; cbn [fst snd];
    [|intros H; exfalso; exact (die_ends _ _ _ _ _ H)].
  destruct (Z.ltb_spec fd2 0) as [_|G2]; [intros D; exfalso; exact (die_ends _ _ _ _ _ D)|].
  destruct (b_open b ENGYFUL) as [fd3|e3]; cbn [fst snd];
    [|intros H; exfalso; exact (die_ends _ _ _ _ _ H)].
  destruct (Z.ltb_spec fd3 0) as [_|G3]; [intros D; exfalso; exact (die_ends _ _ _ _ _ D)|].
  intros [= <- <-]. repeat (split; [reflexivity|]).
  exists fd1, fd2, fd3. repeat split; assumption.
Qed.

(** A start of [main] that meets no error reaches the loop. *)
Lemma startup_ok b f fd1 fd2 fd3 :
  b_display b = true ->
  b_sigaction b SIGHUP = None -> b_sigaction b SIGINT = None ->
  b_sigaction b SIGTERM = None ->
  b_open b LOADAVG = inl fd1 -> b_open b ENGYNOW = inl fd2 ->
  b_open b ENGYFUL = inl fd3 -> 0 <= fd1 -> 0 <= fd2 -> 0 <= fd3 ->
  startup b (fresh f)
  = Running L_time (Proc 0 [Fn_onexit] [SIGTERM; SIGINT; SIGHUP] [] (with_fds fd1 fd2 fd3 f)).
Proof.
  intros Hd S1 S2 S3 O1 O2 O3 H1 H2 H3. unfold startup, c_sigaction, c_open.
  rewrite Hd, S1, S2, S3, O1, O2, O3. cbn [negb fst snd].
  destruct (Z.ltb_spec fd1 0); [lia|]. destruct (Z.ltb_spec fd2 0); [lia|].
  destruct (Z.ltb_spec fd3 0); [lia|]. reflexivity.
Qed.

(** X1: [main] reaches its loop exactly when the display opens, the three
    [sigaction] calls succeed and the three files open; the process then has
    [onexit] as its one exit function, catches SIGHUP, SIGINT and SIGTERM and
    no other signal, holds the three descriptors, and has done nothing to the
    root window yet. *)
Theorem startup_reaches_loop_iff (b : boot) (f : frame) (l : label) (p : proc) :
  startup b (fresh f) = Running l p <->
  b_display b = true /\
  b_sigaction b SIGHUP = None /\ b_sigaction b SIGINT = None /\
  b_sigaction b SIGTERM = None /\
  exists fd1 fd2 fd3,
    b_open b LOADAVG = inl fd1 /\ b_open b ENGYNOW = inl fd2 /\
    b_open b ENGYFUL = inl fd3 /\ 0 <= fd1 /\ 0 <= fd2 /\ 0 <= fd3 /\
    l = L_time /\
    p = Proc 0 [Fn_onexit] [SIGTERM; SIGINT; SIGHUP] [] (with_fds fd1 fd2 fd3 f).
Proof.
  split; [apply startup_running_inv|].
  intros (Hd & S1 & S2 & S3 & fd1 & fd2 & fd3 & O1 & O2 & O3 & H1 & H2 & H3 & -> & ->).
  apply startup_ok; assumption.
Qed.

(** X2: when the display does not open, [main] ends with the failure status
    after one message that names the display; [onexit] is not registered yet,
    so nothing is sent to the display that is not there: no window is named
    and no connection closed, and no signal handler is installed. *)
Theorem display_failure_skips_cleanup (b : boot) (f : frame) :
  b_display b = false ->
  exists p',
    startup b (fresh f) = Exited EXIT_FAILURE p' /\
    actions p' = [EvStderr ("Unable to open display “" ++ b_display_name b ++ "”" ++ LF)] /\
    sig_caught p' = [].
Proof.
  intros Hd. unfold startup. rewrite Hd. cbn [negb].
  destruct (die_formatted _ _ _ (fresh f) (format_display (b_display_name b)))
    as (p' & -> & Ha & Hs).
  exists p'. split; [reflexivity|]. split; assumption.
Qed.

(** X3: when one of the three [sigaction] calls fails, the later ones are not
    made, and [main] ends with the failure status after one message with the
    text of the error; [onexit], registered before, runs: the root window
    name is set to the empty string and the display closed. *)
Theorem sigaction_failure_is_fatal
  (b : boot) (f : frame) (k : nat) (sig : Z) (e : Z) :
  b_display b = true ->
  sig_order !! k = Some sig ->
  (forall s, s ∈ take k sig_order -> b_sigaction b s = None) ->
  b_sigaction b sig = Some e ->
  exists p',
    startup b (fresh f) = Exited EXIT_FAILURE p' /\
    actions p' =
      [EvStderr ("Unable to set signal handler: " ++ strerror e ++ LF);
       EvXStoreName ""; EvXCloseDisplay] /\
    sig_caught p' = reverse (take k sig_order).
Proof.
  intros Hd Hk Hbefore Hsig. unfold startup, c_sigaction. rewrite Hd. cbn [negb].
  destruct k as [|[|[|k]]]; simpl in Hk; try discriminate; injection Hk as <-.
  - rewrite Hsig. cbn [fst snd].
    match goal with |- context [die ?fm ?ar ?q] =>
      destruct (die_formatted fm ar _ q (format_signal _)) as (p' & -> & Ha & Hs)
    end.
    exists p'. split; [reflexivity|]. split; assumption.
  - rewrite (Hbefore SIGHUP) by (simpl; rewrite !elem_of_cons; auto).
    rewrite Hsig. cbn [fst snd].
    match goal with |- context [die ?fm ?ar ?q] =>
      destruct (die_formatted fm ar _ q (format_signal _)) as (p' & -> & Ha & Hs)
    end.
    exists p'. split; [reflexivity|]. split; assumption.
  - rewrite (Hbefore SIGHUP) by (simpl; rewrite !elem_of_cons; auto).
    rewrite (Hbefore SIGINT) by (simpl; rewrite !elem_of_cons; auto).
    rewrite Hsig. cbn [fst snd].
    match goal with |- context [die ?fm ?ar ?q] =>
      destruct (die_formatted fm ar _ q (format_signal _)) as (p' & -> & Ha & Hs)
    end.
    exists p'. split; [reflexivity|]. split; assumption.
Qed.

(** X4: when one of the three [open] calls fails, the later files are not
    opened, and [main] ends with the failure status after one message with
    the path of that file and the text of the error; [onexit] runs: the root
    window name is set to the empty string and the display closed. *)
Theorem open_failure_is_fatal
  (b : boot) (f : frame) (k : nat) (path : string) (e : Z) :
  b_display b = true ->
  (forall s, s ∈ sig_order -> b_sigaction b s = None) ->
  open_order !! k = Some path ->
  (forall q, q ∈ take k open_order -> exists fd, b_open b q = inl fd /\ 0 <= fd) ->
  b_open b path = inr e ->
  exists p',
    startup b (fresh f) = Exited EXIT_FAILURE p' /\
    actions p' =
      [EvStderr ("Failed to open “" ++ path ++ "”: " ++ strerror e ++ LF);
       EvXStoreName ""; EvXCloseDisplay].
Proof.
  intros Hd Hsigs Hk Hbefore Hopen. unfold startup, c_sigaction, c_open.
  rewrite Hd. cbn [negb].
  rewrite (Hsigs SIGHUP), (Hsigs SIGINT), (Hsigs SIGTERM)
    by (unfold sig_order; rewrite !elem_of_cons; auto).
  cbn [fst snd].
  destruct k as [|[|[|k]]]; simpl in Hk; try discriminate; injection Hk as <-.
  - rewrite Hopen. cbn [Z.ltb Z.compare].
    match goal with |- context [die ?fm ?ar ?q] =>
      destruct (die_formatted fm ar _ q (format_open _ _)) as (p' & -> & Ha & Hs)
    end.
    exists p'. split; [reflexivity|]. exact Ha.
  - destruct (Hbefore LOADAVG) as (fd1 & -> & H1); [simpl; rewrite !elem_of_cons; auto|].
    destruct (Z.ltb_spec fd1 0); [lia|].
    rewrite Hopen. cbn [Z.ltb Z.compare].
    match goal with |- context [die ?fm ?ar ?q] =>
      destruct (die_formatted fm ar _ q (format_open _ _)) as (p' & -> & Ha & Hs)
    end.
    exists p'. split; [reflexivity|]. exact Ha.
  - destruct (Hbefore LOADAVG) as (fd1 & -> & H1); [simpl; rewrite !elem_of_cons; auto|].
    destruct (Hbefore ENGYNOW) as (fd2 & -> & H2);
      [simpl; rewrite !elem_of_cons; auto|].
    destruct (Z.ltb_spec fd1 0); [lia|]. destruct (Z.ltb_spec fd2 0); [lia|].
    rewrite Hopen. cbn [Z.ltb Z.compare].
    match goal with |- context [die ?fm ?ar ?q] =>
      destruct (die_formatted fm ar _ q (format_open _ _)) as (p' & -> & Ha & Hs)
    end.
    exists p'. split; [reflexivity|]. exact Ha.
Qed.

(** ** The loop, turn after turn *)

Lemma cat_static w fd buf len p r b p' :
  cat w fd buf len p = (r, b, p') ->
  exit_fns p' = exit_fns p /\ sig_caught p' = sig_caught p /\ vars p' = vars p.
Proof.
  unfold cat. destruct (len <=? 0).
  - intros [= _ _ <-]. repeat split.
  - destruct (pread _ _ _ _) as [[r0 b0] [e|]]; intros [= _ _ <-]; repeat split.
Qed.

(** No statement of the loop body changes the exit functions, the signal
    handlers or the descriptors. *)
Lemma exec_static w l p l' p' :
  exec w l p = Running l' p' ->
  exit_fns p' = exit_fns p /\ sig_caught p' = sig_caught p /\
  same_fds (vars p') (vars p).
Proof.
  unfold same_fds. destruct l; cbn [exec]; intros E.
  - injection E as <- <-. repeat split.
  - destruct (cat _ _ _ _ _) as [[r b] p1] eqn:C. apply cat_static in C as (C1 & C2 & C3).
    destruct (r <? 0); [exfalso; exact (die_ends _ _ _ _ _ E)|].
    injection E as <- <-. frame_simpl. repeat split; assumption.
  - destruct (sscanf _ _); [|discriminate]. injection E as <- <-. repeat split.
  - destruct (cat _ _ _ _ _) as [[r b] p1] eqn:C. apply cat_static in C as (C1 & C2 & C3).
    destruct (r <? 0); [exfalso; exact (die_ends _ _ _ _ _ E)|].
    injection E as <- <-. frame_simpl. repeat split; assumption.
  - destruct (cat _ _ _ _ _) as [[r b] p1] eqn:C. apply cat_static in C as (C1 & C2 & C3).
    destruct (r <? 0); [exfalso; exact (die_ends _ _ _ _ _ E)|].
    injection E as <- <-. frame_simpl. repeat split; assumption.
  - destruct (snprintf _ _ _ _) as [[r b]|]; [|discriminate].
    injection E as <- <-. repeat split.
  - destruct (128 <=? _); injection E as <- <-; repeat split.
  - injection E as <- <-. repeat split.
  - injection E as <- <-. repeat split.
  - injection E as <- <-. repeat split.
Qed.

Lemma steps_static w n :
  forall c l' p',
    Nat.iter n (step w) c = Running l' p' ->
    exists l p,
      c = Running l p /\ exit_fns p' = exit_fns p /\ sig_caught p' = sig_caught p /\
      same_fds (vars p') (vars p).
Proof.
  induction n as [|n IH]; intros c l' p' E.
  - simpl in E. subst c. exists l', p'. unfold same_fds. repeat split.
  - simpl in E. destruct (Nat.iter n (step w) c) as [l1 p1| | | |] eqn:E1; try discriminate.
    destruct (IH c l1 p1 E1) as (l & p & -> & H1 & H2 & H3 & H4 & H5).
    cbn [step] in E. destruct (exec_static _ _ _ _ _ E) as (G1 & G2 & G3 & G4 & G5).
    exists l, p. unfold same_fds. repeat split; congruence.
Qed.

Lemma readable_same_fds w f g : same_fds f g -> readable w f -> readable w g.
Proof. unfold same_fds, readable. intros (-> & -> & ->). trivial. Qed.

Lemma turn_text_same_fds w f g : same_fds f g -> turn_text w f = turn_text w g.
Proof.
  unfold same_fds, turn_text, fraction. intros (_ & -> & ->). reflexivity.
Qed.

Lemma names_shown_app a b : names_shown (a ++ b) = (names_shown a ++ names_shown b)%list.
Proof.
  induction a as [|[] a IH]; simpl; try rewrite IH; reflexivity.
Qed.

(** A run of turns in which every read succeeds. *)
Lemma loop_runs (ws : list world) :
  forall p : proc,
    Forall (fun w => readable w (vars p)) ws ->
    exists p',
      loop ws p = Running L_time p' /\
      names_shown (actions p') =
        (names_shown (actions p)
         ++ map (fun w => kept_of (turn_text w (vars p))) ws)%list /\
      exit_fns p' = exit_fns p /\ sig_caught p' = sig_caught p /\
      same_fds (vars p') (vars p).
Proof.
  induction ws as [|w ws IH]; intros p Hr.
  - exists p. simpl. rewrite app_nil_r. unfold same_fds. repeat split.
  - apply Forall_cons in Hr as [Hw Hws].
    destruct (turn_runs w p Hw) as (p1 & Hrun & _ & _ & _ & Hact & _).
    destruct (steps_static w 10 _ _ _ Hrun) as (l0 & p0 & [= <- <-] & S1 & S2 & S3).
    assert (Hws1 : Forall (fun w0 => readable w0 (vars p1)) ws).
    { eapply Forall_impl; [exact Hws|]. intros w0. apply readable_same_fds.
      unfold same_fds in *. intuition congruence. }
    destruct (IH p1 Hws1) as (p' & Hloop & Hnames & E1 & E2 & E3).
    exists p'. simpl. rewrite Hrun. split; [exact Hloop|]. split.
    + rewrite Hnames, Hact, names_shown_app. simpl. rewrite <- app_assoc. simpl.
      f_equal. f_equal. apply map_ext. intros w0. f_equal.
      apply turn_text_same_fds. exact S3.
    + unfold same_fds in *. repeat split; intuition congruence.
Qed.

(** X5: when the start of [main] meets no error and every read of the
    turns that follow succeeds, the process is never ended: after the turns
    the loop is at its first statement again, the root window was given one
    name per turn, in the order of the turns, each the line of its own turn,
    and [onexit] and the three signal handlers are still in place. *)
Theorem main_shows_each_turn
  (b : boot) (ws : list world) (f : frame) (fd1 fd2 fd3 : Z) :
  b_display b = true ->
  (forall s, s ∈ sig_order -> b_sigaction b s = None) ->
  b_open b LOADAVG = inl fd1 -> b_open b ENGYNOW = inl fd2 ->
  b_open b ENGYFUL = inl fd3 -> 0 <= fd1 -> 0 <= fd2 -> 0 <= fd3 ->
  Forall (fun w => readable w (with_fds fd1 fd2 fd3 f)) ws ->
  exists p',
    main b ws f = Running L_time p' /\
    names_shown (actions p') =
      map (fun w => kept_of (turn_text w (with_fds fd1 fd2 fd3 f))) ws /\
    exit_fns p' = [Fn_onexit] /\
    sig_caught p' = [SIGTERM; SIGINT; SIGHUP].
Proof.
  intros Hd Hs O1 O2 O3 H1 H2 H3 Hr. unfold main.
  rewrite (startup_ok b f fd1 fd2 fd3) by
    (try assumption; apply Hs; unfold sig_order; rewrite !elem_of_cons; auto).
  destruct (loop_runs ws
              (Proc 0 [Fn_onexit] [SIGTERM; SIGINT; SIGHUP] [] (with_fds fd1 fd2 fd3 f)) Hr)
    as (p' & Hloop & Hn & E1 & E2 & _).
  exists p'. split; [exact Hloop|]. split; [exact Hn|]. split; assumption.
Qed.

(** X6: what /proc/loadavg holds never reaches the display: two turns that
    find the same clock, the same stack and the same two energy files show
    the same line, whatever their load average files hold. *)
Theorem loadavg_never_shown (w w' : world) (p : proc) :
  w_clock w' = w_clock w ->
  junk_avg1 w' = junk_avg1 w -> junk_avg5 w' = junk_avg5 w ->
  junk_avg15 w' = junk_avg15 w ->
  w_file w' (engynow (vars p)) = w_file w (engynow (vars p)) ->
  w_file w' (engyful (vars p)) = w_file w (engyful (vars p)) ->
  readable w (vars p) -> readable w' (vars p) ->
  exists p1 p2 name,
    loop_body w p = Running L_time p1 /\
    loop_body w' p = Running L_time p2 /\
    names_shown (actions p1) = (names_shown (actions p) ++ [name])%list /\
    names_shown (actions p2) = (names_shown (actions p) ++ [name])%list.
Proof.
  intros Hc H1 H5 H15 Hn Hu Hr Hr'.
  destruct (turn_runs w p Hr) as (p1 & Hrun1 & _ & _ & _ & Hact1 & _).
  destruct (turn_runs w' p Hr') as (p2 & Hrun2 & _ & _ & _ & Hact2 & _).
  exists p1, p2, (kept_of (turn_text w (vars p))).
  split; [exact Hrun1|]. split; [exact Hrun2|]. split.
  - rewrite Hact1, names_shown_app. reflexivity.
  - rewrite Hact2, names_shown_app. simpl. do 3 f_equal.
    unfold turn_text, fraction, read_text. rewrite Hc, H1, H5, H15, Hn, Hu. reflexivity.
Qed.

Lemma length_strz l : (length (strz l) <= length l)%nat.
Proof.
  induction l as [|c l IH]; simpl; [lia|]. destruct (Ascii.eqb c NUL); simpl; lia.
Qed.

Lemma length_string_of_list l : String.length (string_of_list_ascii l) = length l.
Proof. induction l as [|c l IH]; simpl; [|rewrite IH]; reflexivity. Qed.

Lemma length_list_of_string t : length (list_ascii_of_string t) = String.length t.
Proof. induction t as [|c t IH]; simpl; [|rewrite IH]; reflexivity. Qed.

(** X7: the name a turn gives to the root window has at most 127
    characters, however long the formatted line is. *)
Theorem name_fits_display_buffer (w : world) (p : proc) :
  readable w (vars p) ->
  exists p' name,
    loop_body w p = Running L_time p' /\
    names_shown (actions p') = (names_shown (actions p) ++ [name])%list /\
    (String.length name <= 127)%nat.
Proof.
  intros Hr. destruct (turn_runs w p Hr) as (p' & Hrun & _ & _ & _ & Hact & _).
  exists p', (kept_of (turn_text w (vars p))). split; [exact Hrun|]. split.
  - rewrite Hact, names_shown_app. reflexivity.
  - unfold kept_of. rewrite length_string_of_list.
    etransitivity; [apply length_strz|]. rewrite length_take. lia.
Qed.

(** X8: a turn whose line has fewer than 128 characters stores it whole in
    [nam], a NUL after it, and every store it makes into [nam] is inside the
    array: the store at index 128 is made by the turns with a longer line
    only. *)
Theorem short_line_is_stored_whole (w : world) (p : proc) :
  readable w (vars p) ->
  (String.length (turn_text w (vars p)) < 128)%nat ->
  exists p' rest,
    loop_body w p = Running L_time p' /\
    cells (nam (vars p')) =
      (list_ascii_of_string (turn_text w (vars p)) ++ NUL :: rest)%list /\
    capacity (nam (vars p')) = 128 /\
    Forall (fun i => 0 <= i < 128) (stores (nam (vars p'))).
Proof.
  intros Hr Hlen.
  destruct (turn_runs w p Hr) as (p' & Hrun & _ & _ & _ & _ & Hret & Hnam & _).
  set (text := turn_text w (vars p)) in *.
  assert (Hk : take 127 (list_ascii_of_string text) = list_ascii_of_string text).
  { apply take_ge. rewrite length_list_of_string. lia. }
  rewrite Hret, Z.mod_small in Hnam by (unfold SIZE_MAX1; lia).
  destruct (Z.leb_spec 128 (Z.of_nat (String.length text))); [lia|].
  rewrite Hk in Hnam.
  exists p'. eexists. split; [exact Hrun|]. rewrite Hnam. split; [|split].
  - apply cells_terminated. rewrite length_auto_array, length_list_of_string. lia.
  - rewrite capacity_store, capacity_store_seq. unfold capacity.
    rewrite length_auto_array. reflexivity.
  - simpl. rewrite stores_store_seq. simpl. rewrite app_nil_r.
    rewrite length_list_of_string. apply Forall_cons. split; [lia|].
    apply Forall_forall. intros j Hj. rewrite elem_of_reverse in Hj.
    apply run_of_bounds in Hj. lia.
Qed.

(** A read that fails, as [cat] reports it. *)
Lemma cat_fault w fd buf p e :
  f_fault (w_file w fd) = Some e ->
  cat w fd buf 32 p = (-1, buf, set_errno e (emit (EvPread fd 31 0) p)).
Proof.
  intros Hf. rewrite cat_unfold by (unfold SIZE_MAX1; lia). rewrite Hf. reflexivity.
Qed.

(** X9: in a turn in which a read fails after the reads before it succeeded,
    the later files are not read and the root window gets no new line: after
    the failing [pread] there is only the message with the path of the file
    and the text of the error, and what the exit functions do; the turn ends
    the process with the failure status. *)
Theorem failed_read_ends_the_turn
  (w : world) (p : proc) (k : nat) (fd : frame -> Z) (path : string) (e : Z) :
  read_order !! k = Some fd ->
  open_order !! k = Some path ->
  (forall g, g ∈ take k read_order -> f_fault (w_file w (g (vars p))) = None) ->
  f_fault (w_file w (fd (vars p))) = Some e ->
  exists p',
    loop_body w p = Exited EXIT_FAILURE p' /\
    actions p' =
      (actions p
       ++ map (fun g => EvPread (g (vars p)) 31 0) (take (S k) read_order)
       ++ [EvStderr ("Failed to read from “" ++ path ++ "”: " ++ strerror e ++ LF)]
       ++ exit_actions (exit_fns p))%list.
Proof.
  intros Hk Hp Hbefore Hf. unfold loop_body. cbn [Nat.iter nat_rect]. frame_simpl.
  set (f := vars p) in *.
  destruct k as [|[|[|k]]]; simpl in Hk, Hp; try discriminate;
    injection Hk as <-; injection Hp as <-.
  - read_fails cat_fault format_read c_exit_actions Hf.
  - assert (Ha : f_fault (w_file w (loadavg f)) = None)
      by (apply Hbefore; simpl; rewrite !elem_of_cons; auto).
    read_ok cat_fresh Ha. rewrite sscanf_stores_nothing. frame_simpl.
    read_fails cat_fault format_read c_exit_actions Hf.
  - assert (Ha : f_fault (w_file w (loadavg f)) = None)
      by (apply Hbefore; simpl; rewrite !elem_of_cons; auto).
    assert (Hn : f_fault (w_file w (engynow f)) = None)
      by (apply Hbefore; simpl; rewrite !elem_of_cons; auto).
    read_ok cat_fresh Ha. rewrite sscanf_stores_nothing. frame_simpl.
    read_ok cat_fresh Hn. read_fails cat_fault format_read c_exit_actions Hf.
Qed.

(** ** Edge cases of the reads *)

Lemma strz_live l : Forall (fun c => c <> NUL) l -> strz l = l.
Proof.
  induction 1 as [|c l Hc _ IH]; simpl; [reflexivity|].
  destruct (Ascii.eqb_spec c NUL) as [->|_]; [contradiction|]. rewrite IH. reflexivity.
Qed.

(** X10: when [cat] succeeds on an array that has the capacity it was told,
    the array read as a C string is the bytes read, cut at the first NUL byte
    of the file if there is one among them: it has at most ret characters,
    and it is all of the bytes read when none of them is NUL. *)
Theorem cat_leaves_c_string
  (w : world) (fd : Z) (buf : array) (len : Z) (p : proc)
  (r : Z) (buf' : array) (p' : proc) :
  0 < len < SIZE_MAX1 ->
  len <= capacity buf ->
  cat w fd buf len p = (r, buf', p') ->
  0 <= r ->
  let bytes := take (Z.to_nat r) (f_data (w_file w fd)) in
  c_str buf' = string_of_list_ascii (strz bytes) /\
  (String.length (c_str buf') <= Z.to_nat r)%nat /\
  (Forall (fun c => c <> NUL) bytes -> c_str buf' = string_of_list_ascii bytes).
Proof.
  intros Hlen Hcap Hcat Hr bytes.
  rewrite (cat_unfold _ _ _ _ _ Hlen) in Hcat.
  destruct (f_fault (w_file w fd)) as [e|]; [injection Hcat as <- _ _; lia|].
  simpl in Hcat. injection Hcat as <- <- _.
  set (f := w_file w fd) in *. set (bs := pread_bytes f (len - 1) 0) in *.
  pose proof (length_pread_bytes f (len - 1) 0) as Hbs. fold bs in Hbs.
  pose proof (pread_bytes_prefix f (len - 1)) as Hpre. fold bs in Hpre.
  assert (Hb : bytes = bs) by (subst bytes; rewrite Nat2Z.id; symmetry; exact Hpre).
  assert (Hc : c_str (store (store_seq buf 0 bs) (Z.of_nat (length bs)) NUL)
               = string_of_list_ascii (strz bs)).
  { apply c_str_terminated. unfold capacity in Hcap. lia. }
  rewrite Hc, Hb. split; [reflexivity|]. split.
  - rewrite length_string_of_list, Nat2Z.id. apply length_strz.
  - intros Hlive. rewrite (strz_live _ Hlive). reflexivity.
Qed.

(** X11: in a turn that finds the energy_full file empty while the energy
    now parses to a positive finite value, the quotient is plus infinity:
    the turn does not fail, and the line it formats ends with "inf". *)
Theorem empty_full_energy_shows_inf
  (w : world) (p : proc) (mx : positive) (ex : Z) :
  readable w (vars p) ->
  f_data (w_file w (engyful (vars p))) = [] ->
  atof (read_text w (engynow (vars p))) = S754_finite false mx ex ->
  fraction w (vars p) = S754_infinity false /\
  (exists head, turn_text w (vars p) = head ++ "inf") /\
  exists p',
    loop_body w p = Running L_time p' /\
    names_shown (actions p') =
      (names_shown (actions p) ++ [kept_of (turn_text w (vars p))])%list.
Proof.
  intros Hr He Hx.
  assert (Hq : fraction w (vars p) = S754_infinity false).
  { unfold fraction. rewrite Hx. unfold read_text, pread_bytes.
    rewrite He, drop_nil, take_nil. reflexivity. }
  split; [exact Hq|]. split.
  - destruct (status_text_ends (w_clock w mod 86400 / 3600) (w_clock w mod 3600 / 60)
                (w_clock w mod 60) (junk_avg1 w) (junk_avg5 w) (junk_avg15 w)
                (fraction w (vars p))) as (head & Hh).
    exists head. unfold turn_text. rewrite Hh, Hq. reflexivity.
  - destruct (turn_runs w p Hr) as (p' & Hrun & _ & _ & _ & Hact & _).
    exists p'. split; [exact Hrun|]. rewrite Hact, names_shown_app. reflexivity.
Qed.

(** ** What the loop keeps of its arrays *)

Lemma in_range_fresh n junk : in_range (Z.of_nat n) (auto_array n junk).
Proof.
  split; [unfold capacity; rewrite length_auto_array; reflexivity|constructor].
Qed.

Lemma in_range_cat w fd buf p r b p' :
  cat w fd buf 32 p = (r, b, p') -> in_range 32 buf -> in_range 32 b.
Proof.
  intros C [Hc Hs]. rewrite cat_unfold in C by (unfold SIZE_MAX1; lia).
  destruct (f_fault (w_file w fd)) as [e|].
  - injection C as _ <- _. split; assumption.
  - simpl in C. injection C as _ <- _.
    pose proof (length_pread_bytes (w_file w fd) (32 - 1) 0) as Hb.
    split.
    + rewrite capacity_store, capacity_store_seq. exact Hc.
    + simpl. rewrite stores_store_seq. apply Forall_cons. split; [lia|].
      apply Forall_app. split; [|exact Hs].
      apply Forall_forall. intros j Hj. rewrite elem_of_reverse in Hj.
      apply run_of_bounds in Hj. lia.
Qed.

Lemma exec_tidy w l p l' p' :
  exec w l p = Running l' p' -> tidy l (vars p) -> tidy l' (vars p').
Proof.
  destruct l; cbn [exec]; intros E T.
  - injection E as <- <-. cbn [tidy]. frame_simpl.
    split; [apply (in_range_fresh 32)|]. split; [apply (in_range_fresh 32)|].
    split; [apply (in_range_fresh 32)|apply (in_range_fresh 128)].
  - destruct (cat _ _ _ _ _) as [[r b] p1] eqn:C. destruct T as (T1 & T2 & T3 & T4).
    pose proof (in_range_cat _ _ _ _ _ _ _ C T1) as Hb.
    destruct (r <? 0); [exfalso; exact (die_ends _ _ _ _ _ E)|].
    injection E as <- <-. cbn [tidy]. frame_simpl. repeat (split; [assumption|]). assumption.
  - destruct (sscanf _ _); [|discriminate]. injection E as <- <-. exact T.
  - destruct (cat _ _ _ _ _) as [[r b] p1] eqn:C. destruct T as (T1 & T2 & T3 & T4).
    pose proof (in_range_cat _ _ _ _ _ _ _ C T2) as Hb.
    destruct (r <? 0); [exfalso; exact (die_ends _ _ _ _ _ E)|].
    injection E as <- <-. cbn [tidy]. frame_simpl. repeat (split; [assumption|]). assumption.
  - destruct (cat _ _ _ _ _) as [[r b] p1] eqn:C. destruct T as (T1 & T2 & T3 & T4).
    pose proof (in_range_cat _ _ _ _ _ _ _ C T3) as Hb.
    destruct (r <? 0); [exfalso; exact (die_ends _ _ _ _ _ E)|].
    injection E as <- <-. cbn [tidy]. frame_simpl. repeat (split; [assumption|]). assumption.
  - destruct T as (T1 & T2 & T3 & [Tc Ts]).
    assert (Hcap : length (cells (nam (vars p))) = 128%nat) by (unfold capacity in Tc; lia).
    rewrite (snprintf_status _ _ _ _ _ _ _ _ Hcap) in E.
    injection E as <- <-. cbn [tidy]. frame_simpl.
    split; [exact T1|]. split; [exact T2|]. split; [exact T3|]. split.
    + rewrite capacity_store, capacity_store_seq. exact Tc.
    + simpl. rewrite stores_store_seq.
      match goal with |- context [length (take 127 ?t)] =>
        assert (Hk : (length (take 127 t) <= 127)%nat) by (rewrite length_take; lia);
        generalize dependent (take 127 t)
      end.
      intros kept Hk. apply Forall_cons. split; [lia|].
      apply Forall_app. split; [|exact Ts].
      apply Forall_forall. intros j Hj. rewrite elem_of_reverse in Hj.
      apply run_of_bounds in Hj. lia.
  - destruct T as (T1 & T2 & T3 & [Tc Ts]).
    assert (Hold : Forall (fun i => 0 <= i < 128
                                    \/ (i = 128 /\ 128 <= ret (vars p) mod SIZE_MAX1))
                     (stores (nam (vars p)))).
    { eapply Forall_impl; [exact Ts|]. intros i Hi. left. exact Hi. }
    destruct (Z.leb_spec 128 (ret (vars p) mod SIZE_MAX1)) as [Hlong|Hshort];
      injection E as <- <-; cbn [tidy]; frame_simpl.
    + split; [exact T1|]. split; [exact T2|]. split; [exact T3|]. split.
      * rewrite capacity_store. exact Tc.
      * simpl. apply Forall_cons. split; [right; split; [reflexivity|exact Hlong]|exact Hold].
    + split; [exact T1|]. split; [exact T2|]. split; [exact T3|]. split; assumption.
  - injection E as <- <-. exact T.
  - injection E as <- <-. exact T.
  - injection E as <- <-. exact I.
Qed.

(** X12: at every point the program reaches past the entry of the loop body,
    the arrays [avg], [now] and [ful] have their 32 cells and [nam] its 128,
    every store the turn made into [avg], [now] or [ful] is inside the array,
    and every store it made into [nam] is inside the array or is the one at
    index 128 of a turn whose line had 128 characters or more. *)
Theorem stores_stay_in_the_arrays (c : config) (l : label) (p : proc) :
  reachable c ->
  c = Running l p ->
  tidy l (vars p).
Proof.
  intros Hc. revert l p. induction Hc as [b f|w c Hc IH]; intros l p E.
  - destruct (startup_running_inv _ _ _ _ E)
      as (_ & _ & _ & _ & fd1 & fd2 & fd3 & _ & _ & _ & _ & _ & _ & -> & _).
    exact I.
  - destruct c as [l0 p0| | | |]; try discriminate. cbn [step] in E.
    exact (exec_tidy _ _ _ _ _ E (IH l0 p0 eq_refl)).
Qed.

(** ** Signals that are not caught *)

Lemma reachable_caught c :
  reachable c -> forall l p, c = Running l p -> sig_caught p = [SIGTERM; SIGINT; SIGHUP].
Proof.
  induction 1 as [b f|w c Hc IH]; intros l p E.
  - destruct (startup_running_inv _ _ _ _ E)
      as (_ & _ & _ & _ & fd1 & fd2 & fd3 & _ & _ & _ & _ & _ & _ & _ & ->).
    reflexivity.
  - destruct c as [l0 p0| | | |]; try discriminate. cbn [step] in E.
    destruct (exec_static _ _ _ _ _ E) as (_ & -> & _). exact (IH l0 p0 eq_refl).
Qed.

(** X13: SIGKILL is not among the signals the program catches: when it
    reaches the running program the process is killed as it stands, no exit
    function runs, and the root window keeps the last line it was given. *)
Theorem sigkill_skips_cleanup (c : config) (l : label) (p : proc) :
  reachable c ->
  c = Running l p ->
  deliver SIGKILL c = Killed SIGKILL p /\
  shown (deliver SIGKILL c) = names_shown (actions p).
Proof.
  intros Hc ->. pose proof (reachable_caught _ Hc l p eq_refl) as Hs.
  unfold deliver. rewrite Hs.
  rewrite bool_decide_eq_false_2.
  - split; reflexivity.
  - rewrite !elem_of_cons. unfold SIGKILL, SIGTERM, SIGINT, SIGHUP.
    intros [H|[H|[H|H]]]; try discriminate. inversion H.
Qed.

(** ** Signals that are caught *)

Lemma fold_exit_fns fs :
  forall q,
    fold_left (fun q f => call_exit_fn f q) fs q
    = Proc (errno q) (exit_fns q) (sig_caught q) (actions q ++ exit_actions fs) (vars q).
Proof.
  induction fs as [|[] fs IH]; intros [e x s a v]; simpl.
  - rewrite app_nil_r. reflexivity.
  - rewrite IH. unfold onexit. simpl. rewrite <- !app_assoc. reflexivity.
Qed.

Lemma c_exit_whole status p :
  c_exit status p
  = Exited status
      (Proc (errno p) [] (sig_caught p) (actions p ++ exit_actions (exit_fns p)) (vars p)).
Proof. unfold c_exit. rewrite fold_exit_fns. reflexivity. Qed.

Lemma run_ended hs status p : run hs (Exited status p) = Exited status p.
Proof. induction hs as [|[|sig] hs IH]; [reflexivity|exact IH|exact IH]. Qed.

Lemma exit_actions_cons f fs : exit_actions (f :: fs) = (calls_of f ++ exit_actions fs)%list.
Proof. destruct f. reflexivity. Qed.

(** A signal that leaves a call of [exit] made in the handler as it is: any
    but SIGKILL, SIGSTOP too when it has no handler. *)
Lemma deliver_in_handler sig status rest p :
  sig <> SIGKILL ->
  SIGSTOP ∉ sig_caught p ->
  deliver sig (Exiting status rest true p) = Exiting status rest true p.
Proof.
  intros Hk Hs. unfold deliver, blocked_in_handler. cbn [andb].
  destruct (bool_decide_reflect (sig ∈ [SIGKILL; SIGSTOP])) as [Hin|_]; [|reflexivity].
  cbn [negb]. rewrite !elem_of_cons in Hin.
  destruct Hin as [->|[->|Hin]]; [contradiction| |inversion Hin].
  rewrite bool_decide_eq_false_2 by exact Hs. reflexivity.
Qed.

(** A call of [exit] runs to its end when every signal that arrives meanwhile
    is held back: the calls under way, then the functions still on the list,
    the latest registered first. *)
Lemma exit_runs hs :
  forall status rest handler p,
    (forall sig, sig ∈ signals_of hs ->
                 handler = true /\ sig <> SIGKILL /\ SIGSTOP ∉ sig_caught p) ->
    (steps_left (Exiting status rest handler p) <= steps_of hs)%nat ->
    run hs (Exiting status rest handler p)
    = Exited status
        (Proc (errno p) [] (sig_caught p)
           (actions p ++ rest ++ exit_actions (exit_fns p)) (vars p)).
Proof.
  induction hs as [|[|sig] hs IH]; intros status rest handler p Hsig Hn.
  - unfold steps_of in Hn. simpl in Hn. lia.
  - change (run (Goes_on :: hs) (Exiting status rest handler p))
      with (run hs (exit_step (Exiting status rest handler p))).
    change (steps_of (Goes_on :: hs)) with (S (steps_of hs)) in Hn.
    destruct rest as [|e rest]; cbn [exit_step].
    + destruct (exit_fns p) as [|f fs] eqn:Ef.
      * rewrite run_ended. destruct p as [e x s a v]. simpl in Ef. subst x.
        simpl. rewrite app_nil_r. reflexivity.
      * rewrite IH.
        -- cbn [errno sig_caught actions vars exit_fns]. rewrite exit_actions_cons.
           reflexivity.
        -- exact Hsig.
        -- cbn [steps_left exit_fns] in *. rewrite Ef in Hn. simpl in Hn. simpl. lia.
    + rewrite IH.
      * cbn [errno sig_caught actions vars exit_fns emit]. rewrite <- !app_assoc.
        reflexivity.
      * exact Hsig.
      * cbn [steps_left exit_fns emit] in *. simpl in Hn. lia.
  - change (run (Signal sig :: hs) (Exiting status rest handler p))
      with (run hs (deliver sig (Exiting status rest handler p))).
    destruct (Hsig sig) as (-> & Hk & Hs); [simpl; apply elem_of_cons; left; reflexivity|].
    rewrite deliver_in_handler by assumption.
    apply IH.
    + intros s Hin. apply Hsig. simpl. apply elem_of_cons. right. exact Hin.
    + exact Hn.
Qed.

Lemma steps_of_repeat n : steps_of (repeat Goes_on n) = n.
Proof.
  unfold steps_of. induction n as [|n IH]; [reflexivity|].
  simpl. rewrite IH. reflexivity.
Qed.

Lemma signals_of_repeat n : signals_of (repeat Goes_on n) = [].
Proof. induction n as [|n IH]; [reflexivity|exact IH]. Qed.

(** The steps of [exit] that no signal interrupts are [c_exit]. *)
Lemma exit_steps_whole n status handler p :
  (steps_left (Exiting status [] handler p) <= n)%nat ->
  run (repeat Goes_on n) (Exiting status [] handler p) = c_exit status p.
Proof.
  intros Hn. rewrite c_exit_whole. rewrite exit_runs.
  - reflexivity.
  - rewrite signals_of_repeat. intros sig Hin. inversion Hin.
  - rewrite steps_of_repeat. exact Hn.
Qed.

Lemma die_steps_whole n fmt args p :
  (steps_left (die_to_exit fmt args p) <= n)%nat ->
  run (repeat Goes_on n) (die_to_exit fmt args p) = die fmt args p.
Proof.
  unfold die_to_exit, die. destruct (format fmt args) as [text|].
  - apply exit_steps_whole.
  - intros _. induction n as [|n IH]; [reflexivity|exact IH].
Qed.

Lemma run_running n l p : run (repeat Goes_on n) (Running l p) = Running l p.
Proof. induction n as [|n IH]; [reflexivity|exact IH]. Qed.

Lemma run_undefined n p : run (repeat Goes_on n) (Undefined p) = Undefined p.
Proof. induction n as [|n IH]; [reflexivity|exact IH]. Qed.

(** A statement followed call by call, through the steps of [exit] when it
    enters it, is the statement as [exec] gives it. *)
Lemma exec_whole w l p n :
  (steps_left (exec_to_exit w l p) <= n)%nat ->
  run (repeat Goes_on n) (exec_to_exit w l p) = exec w l p.
Proof.
  destruct l; cbn [exec_to_exit exec]; intros Hn;
    try (destruct (cat _ _ _ _ _) as [[r b] p1]; destruct (r <? 0);
         [apply die_steps_whole; exact Hn|apply run_running]).
  - apply run_running.
  - destruct (sscanf _ _); [apply run_running|apply run_undefined].
  - destruct (snprintf _ _ _ _) as [[r b]|]; [apply run_running|apply run_undefined].
  - destruct (128 <=? _); apply run_running.
  - apply run_running.
  - apply run_running.
  - apply run_running.
Qed.


(** C5: a read fails at some turn of the loop and [die] enters [exit(1)];
    [onexit] is taken off the list and called.  When one of the signals
    SIGHUP, SIGINT, SIGTERM arrives after [onexit] has set the root window
    name and before it closes the display, [onsignal] calls [exit(0)]: no
    function is left to run, the process ends with status 0, and the display
    was never closed.  When the signal arrives one call earlier, the name is
    not reset either.  With no signal the same steps are the statement as
    [exec] gives it. *)
Theorem signal_inside_fatal_exit_skips_close
  (w : world) (c : config) (l : label) (p : proc)
  (fd : frame -> Z) (path : string) (e sig : Z) :
  reachable c ->
  c = Running l p ->
  (l, fd, path) ∈ read_sources ->
  f_fault (w_file w (fd (vars p))) = Some e ->
  sig ∈ [SIGHUP; SIGINT; SIGTERM] ->
  let said :=
    [EvPread (fd (vars p)) 31 0;
     EvStderr ("Failed to read from “" ++ path ++ "”: " ++ strerror e ++ LF)] in
  run [Goes_on; Goes_on; Goes_on; Goes_on] (exec_to_exit w l p) = exec w l p /\
  (exists p',
     run [Goes_on; Goes_on; Signal sig; Goes_on] (exec_to_exit w l p)
     = Exited EXIT_SUCCESS p' /\
     actions p' = (actions p ++ said ++ [EvXStoreName ""])%list /\
     closes (actions p') = 0%nat) /\
  (exists p',
     run [Goes_on; Signal sig; Goes_on] (exec_to_exit w l p) = Exited EXIT_SUCCESS p' /\
     actions p' = (actions p ++ said)%list /\
     resets (actions p') = 0%nat /\
     closes (actions p') = 0%nat).
Proof.
  intros Hc -> Hin Hf Hs said.
  destruct (reachable_armed _ Hc l p eq_refl) as ((A1 & A2 & A3 & A4) & _).
  assert (Hcat : forall buf,
             cat w (fd (vars p)) buf 32 p
             = (-1, buf, set_errno e (emit (EvPread (fd (vars p)) 31 0) p))).
  { intros buf. rewrite cat_unfold by (unfold SIZE_MAX1; lia). rewrite Hf. reflexivity. }
  assert (Hgo : forall q text,
             exit_fns q = [Fn_onexit] ->
             (forall s, s ∈ [SIGHUP; SIGINT; SIGTERM] -> s ∈ sig_caught q) ->
             (exists p',
                run [Goes_on; Goes_on; Signal sig; Goes_on]
                  (Exiting EXIT_FAILURE [] false (emit (EvStderr text) q))
                = Exited EXIT_SUCCESS p' /\
                actions p' = (actions q ++ [EvStderr text; EvXStoreName ""])%list) /\
             (exists p',
                run [Goes_on; Signal sig; Goes_on]
                  (Exiting EXIT_FAILURE [] false (emit (EvStderr text) q))
                = Exited EXIT_SUCCESS p' /\
                actions p' = (actions q ++ [EvStderr text])%list)).
  { intros q text Hq Hcaught.
    unfold run. cbn [fold_left happen exit_step emit exit_fns calls_of deliver
                     sig_caught andb]. rewrite Hq.
    cbn [fold_left happen exit_step emit exit_fns calls_of deliver sig_caught andb].
    rewrite bool_decide_eq_true_2 by exact (Hcaught sig Hs).
    unfold onsignal. cbn [exit_step exit_fns].
    split; eexists; (split; [reflexivity|]); cbn [actions emit]; rewrite <- ?app_assoc;
      reflexivity. }
  split; [apply (exec_whole w l p 4)|].
  - unfold read_sources in Hin.
    repeat (apply elem_of_cons in Hin as [Hin|Hin]); try (inversion Hin; fail);
      injection Hin as -> -> ->; cbn [exec_to_exit]; rewrite Hcat; cbn [Z.ltb Z.compare];
      unfold die_to_exit; rewrite format_read; cbn [steps_left exit_fns emit set_vars
                                                     set_errno];
      rewrite A1; simpl; lia.
  - unfold read_sources in Hin.
    repeat (apply elem_of_cons in Hin as [Hin|Hin]); try (inversion Hin; fail);
      injection Hin as -> -> ->; cbn [exec_to_exit]; rewrite Hcat; cbn [Z.ltb Z.compare];
      unfold die_to_exit; rewrite format_read;
      match goal with |- context [Exiting _ [] false (emit (EvStderr ?text) ?q)] =>
        destruct (Hgo q text) as ((p1 & R1 & H1) & (p2 & R2 & H2));
          [exact A1|exact A2|]
      end;
      (split; [exists p1; split; [exact R1|]|exists p2; split; [exact R2|]]);
      rewrite ?H1, ?H2; subst said; frame_simpl; rewrite <- ?app_assoc;
      (split; [reflexivity|]);
      rewrite ?closes_app, ?resets_app, ?A3, ?A4; try split; reflexivity.
Qed.

(** ** The time of day *)

Lemma fmt_u_two n : 0 <= n < 100 -> fmt_u (Some 2%nat) n = two_digits n.
Proof.
  intros H.
  assert (Hall : forallb (fun k => String.eqb (fmt_u (Some 2%nat) (Z.of_nat k))
                                     (two_digits (Z.of_nat k))) (seq 0 100) = true)
    by (vm_compute; reflexivity).
  rewrite forallb_forall in Hall.
  specialize (Hall (Z.to_nat n)). rewrite Z2Nat.id in Hall by lia.
  apply String.eqb_eq. apply Hall. apply in_seq. lia.
Qed.

(** What a 128-byte array keeps of a text starts with the characters of the
    text, as far as they are not NUL and fit. *)
Lemma kept_prefix pre tail :
  forall n,
    Forall (fun c => c <> NUL) (list_ascii_of_string pre) ->
    (String.length pre <= n)%nat ->
    string_of_list_ascii (strz (take n (list_ascii_of_string (pre ++ tail))))
    = pre ++ string_of_list_ascii
               (strz (take (n - String.length pre) (list_ascii_of_string tail))).
Proof.
  induction pre as [|c pre IH]; intros n Hlive Hn.
  - simpl. rewrite Nat.sub_0_r. reflexivity.
  - destruct n as [|n]; [simpl in Hn; lia|].
    simpl in Hlive. apply Forall_cons in Hlive as [Hc Hlive].
    simpl. destruct (Ascii.eqb_spec c NUL) as [->|_]; [contradiction|].
    simpl. rewrite IH by (try assumption; simpl in Hn; lia). reflexivity.
Qed.

(** X14: in every turn whose reads succeed the name [XStoreName] gets starts
    with the UTC time of day of the clock in eight characters: hours below
    24, minutes and seconds below 60, each printed by [%.2u] as two decimal
    digits, with colons between them and two spaces after. *)
Theorem line_starts_with_time (w : world) (p : proc) :
  readable w (vars p) ->
  let h := w_clock w mod 86400 / 3600 in
  let m := w_clock w mod 3600 / 60 in
  let s := w_clock w mod 60 in
  0 <= h < 24 /\ 0 <= m < 60 /\ 0 <= s < 60 /\
  exists p' rest,
    loop_body w p = Running L_time p' /\
    names_shown (actions p') =
      (names_shown (actions p)
       ++ [(two_digits h ++ ":" ++ two_digits m ++ ":" ++ two_digits s ++ "  "
            ++ rest)%string])%list.
Proof.
  intros Hr h m s.
  assert (Hh : 0 <= h < 24).
  { subst h. pose proof (Z.mod_pos_bound (w_clock w) 86400 ltac:(lia)).
    split; [apply Z.div_pos; lia|apply Z.div_lt_upper_bound; lia]. }
  assert (Hm : 0 <= m < 60).
  { subst m. pose proof (Z.mod_pos_bound (w_clock w) 3600 ltac:(lia)).
    split; [apply Z.div_pos; lia|apply Z.div_lt_upper_bound; lia]. }
  assert (Hs : 0 <= s < 60) by (subst s; apply Z.mod_pos_bound; lia).
  repeat (split; [assumption|]).
  destruct (turn_runs w p Hr) as (p' & Hrun & _ & _ & _ & Hact & _).
  assert (Hdigit : forall n, 0 <= n < 100 ->
             digit_char (n / 10) <> NUL /\ digit_char (n mod 10) <> NUL).
  { intros n Hn. split; apply digit_char_live.
    - split; [apply Z.div_pos; lia|apply Z.div_lt_upper_bound; lia].
    - apply Z.mod_pos_bound. lia. }
  destruct (Hdigit h ltac:(lia)) as [Hh1 Hh2].
  destruct (Hdigit m ltac:(lia)) as [Hm1 Hm2].
  destruct (Hdigit s ltac:(lia)) as [Hs1 Hs2].
  exists p'. eexists. split; [exact Hrun|].
  rewrite Hact, names_shown_app. cbn [names_shown]. do 2 f_equal.
  unfold turn_text, status_text. fold h m s.
  rewrite !fmt_u_two by lia.
  match goal with |- context [fmt_f 2 (junk_avg1 w) ++ ?t] =>
    set (tail := fmt_f 2 (junk_avg1 w) ++ t)
  end.
  unfold kept_of.
  change (two_digits h ++ ":" ++ two_digits m ++ ":" ++ two_digits s ++ "  " ++ tail)
    with ((two_digits h ++ ":" ++ two_digits m ++ ":" ++ two_digits s ++ "  ") ++ tail).
  rewrite kept_prefix.
  - unfold two_digits. cbn [append]. reflexivity.
  - unfold two_digits. cbn [append list_ascii_of_string].
    repeat (apply Forall_cons; split; [first [assumption|discriminate]|]).
    apply Forall_nil. exact I.
  - unfold two_digits. cbn [append String.length]. lia.
Qed.

End Udon.

(** * Examples

    The theorems above at the scenes, with the texts of the GNU C library. *)

Lemma startup_boot_ok :
  startup gnu_nan gnu_strerror boot_ok (fresh (vars booted)) = Running L_time booted.
Proof. reflexivity. Qed.

Lemma cat_failed_read_witness :
  snd (fst (cat scene_fault 4 (auto_array 32 blank) 32 booted)) = auto_array 32 blank /\
  stores_since (auto_array 32 blank)
    (snd (fst (cat scene_fault 4 (auto_array 32 blank) 32 booted))) = [] /\
  exists e, f_fault (w_file scene_fault 4) = Some e /\
            errno (snd (cat scene_fault 4 (auto_array 32 blank) 32 booted)) = e.
Proof.
  apply (cat_failed_read_leaves_buffer scene_fault 4 (auto_array 32 blank) 32 booted (-1)).
  - unfold SIZE_MAX1. lia.
  - vm_compute. reflexivity.
  - lia.
Defined.

Lemma cat_stores_in_bounds_witness :
  Forall (fun i => 0 <= i < 32)
    (stores_since (auto_array 32 blank)
       (snd (fst (cat scene_half 4 (auto_array 32 blank) 32 booted)))).
Proof.
  refine (proj1 (cat_stores_in_bounds scene_half 4 (auto_array 32 blank) 32 booted
                   5 _ (snd (cat scene_half 4 (auto_array 32 blank) 32 booted)) _ _)).
  - unfold SIZE_MAX1. lia.
  - vm_compute. reflexivity.
Defined.

Lemma cat_reads_from_start_witness :
  5 <= 32 - 1 /\
  (Z.to_nat 5 <= length (f_data (w_file scene_half 4)))%nat /\
  (exists rest,
     cells (snd (fst (cat scene_half 4 (auto_array 32 blank) 32 booted)))
     = (take (Z.to_nat 5) (f_data (w_file scene_half 4)) ++ NUL :: rest)%list) /\
  actions (snd (cat scene_half 4 (auto_array 32 blank) 32 booted))
  = (actions booted ++ [EvPread 4 (32 - 1) 0])%list /\
  forall pos,
    cat (seek pos scene_half) 4 (auto_array 32 blank) 32 booted
    = (5, snd (fst (cat scene_half 4 (auto_array 32 blank) 32 booted)),
       snd (cat scene_half 4 (auto_array 32 blank) 32 booted)).
Proof.
  apply (cat_reads_from_start scene_half 4 (auto_array 32 blank) 32 booted).
  - unfold SIZE_MAX1. lia.
  - vm_compute. discriminate.
  - vm_compute. reflexivity.
  - lia.
Defined.

Lemma zero_full_energy_witness :
  is_finite (fraction scene_flat (vars booted)) = false /\
  shown (loop_body gnu_nan gnu_strerror scene_flat booted)
  = ["07:09:03  0.00 0.00 0.00  inf"].
Proof.
  destruct (zero_full_energy_is_formatted gnu_nan gnu_strerror scene_flat booted false)
    as (Hq & _ & p' & Hrun & Hact).
  - repeat split.
  - vm_compute. reflexivity.
  - split; [exact Hq|]. vm_compute. reflexivity.
Defined.

Lemma read_failure_witness :
  exists p',
    exec gnu_nan gnu_strerror scene_fault L_cat_now booted = Exited EXIT_FAILURE p' /\
    EXIT_FAILURE <> 0 /\
    actions p' =
      (actions booted ++
       [EvPread (engynow (vars booted)) 31 0;
        EvStderr ("Failed to read from “" ++ ENGYNOW ++ "”: " ++ gnu_strerror EIO ++ LF)] ++
       exit_actions (exit_fns booted))%list.
Proof.
  apply (read_failure_is_fatal gnu_nan gnu_strerror scene_fault booted L_cat_now engynow
           ENGYNOW EIO).
  - unfold read_sources. apply elem_of_cons. right. apply elem_of_cons. left. reflexivity.
  - reflexivity.
Defined.

Lemma battery_fraction_witness :
  exists s units,
    fmt_f gnu_nan 2 (fraction scene_half (vars booted))
    = sign_text s ++ fixed_text 2 units /\
    0 <= units <= 100 /\
    (s = true -> atof (read_text scene_half (engynow (vars booted))) = S754_zero true).
Proof.
  refine (proj2 (proj2 (proj2
    (battery_fraction_field gnu_nan gnu_strerror scene_half booted
       5497558138880000%positive (-39) _ _))) _).
  - repeat split.
  - vm_compute. reflexivity.
  - vm_compute. discriminate.
Defined.

(** The fraction printed is not always the ratio of the readings rounded to
    two decimals.  At 72938733095461 of 97904339725451 the ratio is above
    0.745 and its nearest hundredth is 0.75, and the line shows 0.74; at 3 of
    200 the ratio is 0.015, which rounds to 0.02, and the line shows 0.01. *)
Lemma battery_fraction_not_the_ratio_rounded :
  shown (loop_body gnu_nan gnu_strerror scene_near booted)
  = ["07:09:03  0.00 0.00 0.00  0.74"] /\
  spec_fraction_text 72938733095461 97904339725451 = "0.75" /\
  ~ nearest_to 74 (100 * 72938733095461) 97904339725451 /\
  shown (loop_body gnu_nan gnu_strerror scene_tie booted)
  = ["07:09:03  0.00 0.00 0.00  0.01"] /\
  spec_fraction_text 3 200 = "0.02".
Proof.
  split; [vm_compute; reflexivity|]. split; [vm_compute; reflexivity|].
  split; [unfold nearest_to; lia|]. split; vm_compute; reflexivity.
Qed.

(** * More examples *)

Lemma startup_reaches_loop_witness :
  startup gnu_nan gnu_strerror boot_ok (fresh (vars booted)) = Running L_time booted.
Proof.
  apply (proj2 (startup_reaches_loop_iff gnu_nan gnu_strerror boot_ok (vars booted)
                  L_time booted)).
  repeat (split; [reflexivity|]). exists 3, 4, 5.
  repeat split; try reflexivity; lia.
Defined.

Lemma display_failure_witness :
  exists p',
    startup gnu_nan gnu_strerror boot_no_display (fresh (vars booted))
    = Exited EXIT_FAILURE p' /\
    actions p' = [EvStderr ("Unable to open display “" ++ ":7" ++ "”" ++ LF)] /\
    sig_caught p' = [].
Proof.
  apply (display_failure_skips_cleanup gnu_nan gnu_strerror boot_no_display (vars booted)).
  reflexivity.
Defined.

Lemma sigaction_failure_witness :
  exists p',
    startup gnu_nan gnu_strerror boot_no_sigint (fresh (vars booted))
    = Exited EXIT_FAILURE p' /\
    actions p' =
      [EvStderr ("Unable to set signal handler: " ++ "Invalid argument" ++ LF);
       EvXStoreName ""; EvXCloseDisplay] /\
    sig_caught p' = [SIGHUP].
Proof.
  apply (sigaction_failure_is_fatal gnu_nan gnu_strerror boot_no_sigint (vars booted)
           1%nat SIGINT EINVAL).
  - reflexivity.
  - reflexivity.
  - intros s Hs. simpl in Hs. apply list_elem_of_singleton in Hs. subst s. reflexivity.
  - reflexivity.
Defined.

Lemma open_failure_witness :
  exists p',
    startup gnu_nan gnu_strerror boot_no_battery (fresh (vars booted))
    = Exited EXIT_FAILURE p' /\
    actions p' =
      [EvStderr ("Failed to open “" ++ ENGYNOW ++ "”: " ++ "Input/output error" ++ LF);
       EvXStoreName ""; EvXCloseDisplay].
Proof.
  apply (open_failure_is_fatal gnu_nan gnu_strerror boot_no_battery (vars booted)
           1%nat ENGYNOW EIO).
  - reflexivity.
  - intros s _. reflexivity.
  - reflexivity.
  - intros q Hq. simpl in Hq. apply list_elem_of_singleton in Hq. subst q.
    exists 3. split; [reflexivity|lia].
  - reflexivity.
Defined.

Lemma main_shows_each_turn_witness :
  exists p',
    main gnu_nan gnu_strerror boot_ok [scene_half; scene_tie] (vars booted)
    = Running L_time p' /\
    names_shown (actions p') =
      map (fun w => kept_of (turn_text gnu_nan w (with_fds 3 4 5 (vars booted))))
        [scene_half; scene_tie] /\
    exit_fns p' = [Fn_onexit] /\
    sig_caught p' = [SIGTERM; SIGINT; SIGHUP].
Proof.
  apply (main_shows_each_turn gnu_nan gnu_strerror boot_ok [scene_half; scene_tie]
           (vars booted) 3 4 5); try reflexivity; try lia.
  repeat constructor.
Defined.

Lemma loadavg_never_shown_witness :
  exists p1 p2 name,
    loop_body gnu_nan gnu_strerror scene_half booted = Running L_time p1 /\
    loop_body gnu_nan gnu_strerror scene_busy booted = Running L_time p2 /\
    names_shown (actions p1) = (names_shown (actions booted) ++ [name])%list /\
    names_shown (actions p2) = (names_shown (actions booted) ++ [name])%list.
Proof.
  apply (loadavg_never_shown gnu_nan gnu_strerror scene_half scene_busy booted);
    try reflexivity; repeat split.
Defined.

Lemma name_fits_display_buffer_witness :
  exists p' name,
    loop_body gnu_nan gnu_strerror scene_long booted = Running L_time p' /\
    names_shown (actions p') = (names_shown (actions booted) ++ [name])%list /\
    (String.length name <= 127)%nat.
Proof.
  apply (name_fits_display_buffer gnu_nan gnu_strerror scene_long booted).
  repeat split.
Defined.

Lemma short_line_witness :
  exists p' rest,
    loop_body gnu_nan gnu_strerror scene_half booted = Running L_time p' /\
    cells (nam (vars p')) =
      (list_ascii_of_string (turn_text gnu_nan scene_half (vars booted)) ++ NUL :: rest)%list /\
    capacity (nam (vars p')) = 128 /\
    Forall (fun i => 0 <= i < 128) (stores (nam (vars p'))).
Proof.
  apply (short_line_is_stored_whole gnu_nan gnu_strerror scene_half booted).
  - repeat split.
  - vm_compute. lia.
Defined.

Lemma failed_read_witness :
  exists p',
    loop_body gnu_nan gnu_strerror scene_fault booted = Exited EXIT_FAILURE p' /\
    actions p' =
      (actions booted
       ++ map (fun g => EvPread (g (vars booted)) 31 0) (take 2 read_order)
       ++ [EvStderr ("Failed to read from “" ++ ENGYNOW ++ "”: " ++ gnu_strerror EIO ++ LF)]
       ++ exit_actions (exit_fns booted))%list.
Proof.
  apply (failed_read_ends_the_turn gnu_nan gnu_strerror scene_fault booted 1%nat engynow
           ENGYNOW EIO).
  - reflexivity.
  - reflexivity.
  - intros g Hg. simpl in Hg. apply list_elem_of_singleton in Hg. subst g. reflexivity.
  - reflexivity.
Defined.

Lemma cat_leaves_c_string_witness :
  c_str (snd (fst (cat scene_half 4 (auto_array 32 blank) 32 booted)))
  = string_of_list_ascii (strz (take (Z.to_nat 5) (f_data (w_file scene_half 4)))) /\
  (String.length (c_str (snd (fst (cat scene_half 4 (auto_array 32 blank) 32 booted))))
   <= Z.to_nat 5)%nat /\
  (Forall (fun c => c <> NUL) (take (Z.to_nat 5) (f_data (w_file scene_half 4))) ->
   c_str (snd (fst (cat scene_half 4 (auto_array 32 blank) 32 booted)))
   = string_of_list_ascii (take (Z.to_nat 5) (f_data (w_file scene_half 4)))).
Proof.
  apply (cat_leaves_c_string scene_half 4 (auto_array 32 blank) 32 booted 5 _
           (snd (cat scene_half 4 (auto_array 32 blank) 32 booted))).
  - unfold SIZE_MAX1. lia.
  - vm_compute. discriminate.
  - vm_compute. reflexivity.
  - lia.
Defined.

Lemma empty_full_energy_witness :
  fraction scene_empty (vars booted) = S754_infinity false /\
  (exists head, turn_text gnu_nan scene_empty (vars booted) = head ++ "inf") /\
  exists p',
    loop_body gnu_nan gnu_strerror scene_empty booted = Running L_time p' /\
    names_shown (actions p') =
      (names_shown (actions booted)
       ++ [kept_of (turn_text gnu_nan scene_empty (vars booted))])%list.
Proof.
  apply (empty_full_energy_shows_inf gnu_nan gnu_strerror scene_empty booted
           5497558138880000%positive (-40)).
  - repeat split.
  - reflexivity.
  - vm_compute. reflexivity.
Defined.

Lemma stores_stay_witness :
  exists p,
    Nat.iter 8 (step gnu_nan gnu_strerror scene_long) (Running L_time booted)
    = Running L_flush p /\
    128 <= ret (vars p) /\
    hd_error (stores (nam (vars p))) = Some 128 /\
    tidy L_flush (vars p).
Proof.
  pose (p := match
               Nat.iter 8 (step gnu_nan gnu_strerror scene_long) (Running L_time booted)
             with
             | Running _ q => q
             | _ => booted
             end).
  exists p.
  split; [vm_compute; reflexivity|].
  split; [vm_compute; discriminate|].
  split; [vm_compute; reflexivity|].
  apply (stores_stay_in_the_arrays gnu_nan gnu_strerror
           (Nat.iter 8 (step gnu_nan gnu_strerror scene_long)
              (startup gnu_nan gnu_strerror boot_ok (fresh (vars booted))))
           L_flush).
  - cbn [Nat.iter nat_rect]. do 8 apply reach_step. apply reach_startup.
  - vm_compute. reflexivity.
Defined.

Lemma sigkill_witness :
  deliver SIGKILL (Running L_time booted) = Killed SIGKILL booted /\
  shown (deliver SIGKILL (Running L_time booted)) = names_shown (actions booted).
Proof.
  apply (sigkill_skips_cleanup gnu_nan gnu_strerror (Running L_time booted) L_time booted).
  - exact (reach_startup gnu_nan gnu_strerror boot_ok (vars booted)).
  - reflexivity.
Defined.

(** * Examples with signals and a long line *)

Lemma signal_inside_fatal_exit_witness :
  exists p p1 p2,
    Nat.iter 3 (step gnu_nan gnu_strerror scene_fault) (Running L_time booted)
    = Running L_cat_now p /\
    run [Goes_on; Goes_on; Goes_on; Goes_on]
      (exec_to_exit gnu_nan gnu_strerror scene_fault L_cat_now p)
    = exec gnu_nan gnu_strerror scene_fault L_cat_now p /\
    run [Goes_on; Goes_on; Signal SIGTERM; Goes_on]
      (exec_to_exit gnu_nan gnu_strerror scene_fault L_cat_now p)
    = Exited EXIT_SUCCESS p1 /\
    actions p1 =
      [EvPread 3 31 0; EvPread 4 31 0;
       EvStderr ("Failed to read from “" ++ ENGYNOW ++ "”: Input/output error" ++ LF);
       EvXStoreName ""] /\
    closes (actions p1) = 0%nat /\
    run [Goes_on; Signal SIGTERM; Goes_on]
      (exec_to_exit gnu_nan gnu_strerror scene_fault L_cat_now p)
    = Exited EXIT_SUCCESS p2 /\
    actions p2 =
      [EvPread 3 31 0; EvPread 4 31 0;
       EvStderr ("Failed to read from “" ++ ENGYNOW ++ "”: Input/output error" ++ LF)] /\
    resets (actions p2) = 0%nat /\
    closes (actions p2) = 0%nat.
Proof.
  pose (p := match
               Nat.iter 3 (step gnu_nan gnu_strerror scene_fault) (Running L_time booted)
             with
             | Running _ q => q
             | _ => booted
             end).
  exists p.
  destruct (signal_inside_fatal_exit_skips_close gnu_nan gnu_strerror scene_fault
              (step gnu_nan gnu_strerror scene_fault
                 (step gnu_nan gnu_strerror scene_fault
                    (step gnu_nan gnu_strerror scene_fault
                       (startup gnu_nan gnu_strerror boot_ok (fresh (vars booted))))))
              L_cat_now p engynow ENGYNOW EIO SIGTERM)
    as (Hwhole & (p1 & R1 & A1 & C1) & (p2 & R2 & A2 & Z2 & C2)).
  - do 3 apply reach_step. apply reach_startup.
  - vm_compute. reflexivity.
  - unfold read_sources. apply elem_of_cons. right. apply elem_of_cons. left. reflexivity.
  - reflexivity.
  - apply elem_of_cons. right. apply elem_of_cons. right. apply elem_of_cons. left.
    reflexivity.
  - exists p1, p2. split; [vm_compute; reflexivity|].
    split; [exact Hwhole|]. split; [exact R1|]. split; [rewrite A1; reflexivity|].
    split; [exact C1|]. split; [exact R2|]. split; [rewrite A2; reflexivity|].
    split; [exact Z2|exact C2].
Defined.


Lemma line_starts_with_time_witness :
  exists p' rest,
    loop_body gnu_nan gnu_strerror scene_half booted = Running L_time p' /\
    names_shown (actions p') = ["07:09:03  " ++ rest].
Proof.
  destruct (line_starts_with_time gnu_nan gnu_strerror scene_half booted)
    as (_ & _ & _ & p' & rest & R & A).
  - repeat split.
  - exists p', rest. split; [exact R|exact A].
Defined.
